(** * crio-lxc-init: the container hand-off shim

    A shallow embedding of [cmd/init/crio-lxc-init.c] and the properties of
    its argument loader ([readlines]), environment loader
    ([load_environment]), rendezvous writer ([writefifo]) and [main].

    Conventions of the embedding.
    - A C [char] is a [byte]; its value as an [int] is the signed one
      ([char_to_int]), as on the x86-64 Linux targets the program is built
      for.  An [int] is a [Z].
    - A [FILE*] opened for reading is the list of bytes not read yet; reads
      of an opened stream do not fail, opening may.
    - An array is a list, written by index; [char*] strings read from an
      array stop at the first NUL.
    - Locals that the code reads or passes on before it initialises them
      ([c] in [load_environment], the stack arrays of [main]) are inputs of
      the model.
    - [malloc] (inside [strndup] and [setenv]) does not fail.
    - Pointers have 8 bytes, [size_t] has 64 bits, the C library is glibc. *)

From Stdlib Require Import ZArith Lia.
From Stdlib Require Import Init.Byte.
From Stdlib Require Strings.Byte.
From coqutil Require Import Byte.
From stdpp Require Import base decidable countable gmap list strings.

Local Open Scope Z_scope.

(** ** C characters and strings *)

#[global] Instance byte_eq_dec : EqDecision byte := Byte.byte_eq_dec.

#[global] Instance byte_countable : Countable byte :=
  inj_countable Byte.to_N Byte.of_N Byte.of_to_N.

(** Promotion of a (signed) [char] to [int]. *)
Definition char_to_int (c : byte) : Z :=
  let u := byte.unsigned c in if u <? 128 then u else u - 256.

(** Conversion of an [int] to [char]: the low eight bits. *)
Definition int_to_char (x : Z) : byte := byte.of_Z x.

Definition EOF : Z := -1.
Definition ENOENT : Z := 2.
Definition E2BIG : Z := 7.
Definition EINVAL : Z := 22.

Definition NUL : byte := x00.
Definition newline : byte := x0a.
Definition equals_sign : byte := x3d.

(** A C string as the bytes before its terminator. *)
Abbreviation cstr := (list byte).

(** The string that starts at the beginning of [m]: the bytes before the
    first NUL. *)
Fixpoint cstring (m : list byte) : cstr :=
  match m with
  | [] => []
  | b :: m' => if decide (b = NUL) then [] else b :: cstring m'
  end.

(** The string that a pointer [buf + off] designates. *)
Definition cstring_at (buf : list byte) (off : Z) : cstr :=
  cstring (drop (Z.to_nat off) buf).

Definition strlen (s : cstr) : Z := Z.of_nat (length s).

(** [size_t] arithmetic wraps modulo 2^64. *)
Definition SIZE_MOD : Z := 2 ^ 64.

(** [strndup(s, n)]: a fresh copy of at most [n] bytes of [s]. *)
Definition strndup (s : cstr) (n : Z) : cstr :=
  take (Z.to_nat (Z.min n (strlen s))) s.

(** Text of the source as bytes. *)
Definition bytes_of (s : string) : list byte := String.list_byte_of_string s.

(** ** Streams *)

(** A stream opened for reading: the bytes not read yet.  [getc] takes the
    first of them, as an [unsigned char] converted to [int], and gives
    [EOF] on the empty list. *)
Definition FILE := list byte.


(** ** The process environment *)

Abbreviation Env := (gmap cstr cstr).

(** [setenv(name, value, 1)]: fails with [EINVAL] on an empty name or one
    that holds '='; otherwise inserts or overwrites.  Returns the status,
    the environment and [errno]. *)
Definition setenv (name value : cstr) (env : Env) (errno : Z) : Z * Env * Z :=
  if decide (name = [] ∨ equals_sign ∈ name)
  then (-1, env, EINVAL)
  else (0, <[name := value]> env, errno).

(** ** [load_environment] *)

(** The variables of [load_environment] that its loops change. *)
Record env_state := EnvState {
  es_file : FILE;            (* bytes of the stream not read yet *)
  es_c : byte;               (* [char c] *)
  es_buf : list byte;        (* the working buffer *)
  es_env : Env;              (* the process environment *)
  es_errno : Z
}.

(** How the [for] loop that reads one record ends: it falls out of the loop
    (by [break] or by its condition) with [value] set or not, or it returns
    from the function. *)
Inductive for_exit :=
| ForDone (f : FILE) (c : byte) (buf : list byte) (value : option Z)
| ForReturn (code : Z) (f : FILE) (c : byte) (buf : list byte).

(** Lines 90-112.  [value] is [None] for [NULL] and [Some off] for
    [buf + off].  The [match] on the stream is [getc]; on an exhausted
    stream the body runs with [c = (char)EOF], which compares equal to
    [EOF]. *)
Fixpoint read_record (buflen : Z) (f : FILE) (i : Z) (c : byte)
    (buf : list byte) (value : option Z) {struct f} : for_exit :=
  if negb (i <? buflen) then ForDone f c buf value
  else
    match f with
    | [] =>
        let c := int_to_char EOF in
        ForDone [] c (<[Z.to_nat i := NUL]> buf) value
    | b :: f' =>
        let c := int_to_char (byte.unsigned b) in
        if char_to_int c =? EOF then
          ForDone f' c (<[Z.to_nat i := NUL]> buf) value
        else
          let buf := <[Z.to_nat i := c]> buf in
          if char_to_int c =? 0 then ForDone f' c buf value
          else if i =? buflen - 1 then ForReturn E2BIG f' c buf
          else
            match value with
            | None =>
                if char_to_int c =? char_to_int equals_sign
                then read_record buflen f' (i + 1) c
                       (<[Z.to_nat i := NUL]> buf) (Some (i + 1))
                else read_record buflen f' (i + 1) c buf value
            | Some _ => read_record buflen f' (i + 1) c buf value
            end
    end.

(** What one turn of the [while] loop does: it returns from the function or
    goes back to the loop test. *)
Inductive turn :=
| Return (code : Z) (s : env_state)
| Again (s : env_state).

(** Lines 88-124: the body of the [while] loop. *)
Definition load_record (buflen : Z) (s : env_state) : turn :=
  match read_record buflen (es_file s) 0 (es_c s) (es_buf s) None with
  | ForReturn code f c buf =>
      Return code (EnvState f c buf (es_env s) (es_errno s))
  | ForDone f c buf value =>
      let s1 := EnvState f c buf (es_env s) (es_errno s) in
      if negb (es_errno s =? 0) then Return (-1) s1
      else
        match value with
        | None => Return EINVAL s1
        | Some off =>
            let '(r, env, errno) :=
              setenv (cstring_at buf 0) (cstring_at buf off)
                     (es_env s) (es_errno s) in
            let s2 := EnvState f c buf env errno in
            if negb (r =? 0) then Return (-1) s2 else Again s2
        end
  end.

(** Lines 87-129: the [while] loop and what follows it.  [fclose_res] is
    the status of the final [fclose].  [None]: the fuel ran out. *)
Fixpoint env_loop (fuel : nat) (fclose_res : Z) (buflen : Z) (s : env_state)
    : option (Z * env_state) :=
  match fuel with
  | O => None
  | S fuel' =>
      if negb (char_to_int (es_c s) =? EOF) then
        match load_record buflen s with
        | Return code s' => Some (code, s')
        | Again s' => env_loop fuel' fclose_res buflen s'
        end
      else if negb (es_errno s =? 0) then Some (-1, s)
      else Some (fclose_res, s)
  end.

(** [load_environment(path, buf, buflen)] once [fopen] has succeeded on a
    stream holding [f]; [c0] is the value the uninitialised [c] happens to
    have.  Every turn of the loop that goes round again has read a byte, so
    the fuel is enough ([load_environment_total]). *)
Definition load_environment_on (fclose_res : Z) (f : FILE) (c0 : byte)
    (buf : list byte) (buflen : Z) (env : Env) (errno : Z)
    : option (Z * env_state) :=
  env_loop (S (S (length f))) fclose_res buflen (EnvState f c0 buf env errno).

(** ** The operating system, as far as the program can tell *)

(** The answers of the calls whose outcome the program tests. *)
Record Sys := {
  sys_files : gmap string (list byte);
    (* the files [fopen(path, "r")] can open, with their contents *)
  sys_fclose : Z;
    (* status of [fclose] *)
  sys_open : string → Z;
    (* [open(path, O_WRONLY)]: a descriptor, or -1 *)
  sys_write : Z → cstr → Z → Z;
    (* [write(fd, msg, count)]: the number of bytes taken, or -1 *)
  sys_close : Z → Z;
    (* [close(fd)]: 0, or -1 *)
  sys_prctl_set_name : cstr → Z;
    (* [prctl(PR_SET_NAME, name, ...)]: 0, or -1 *)
  sys_execvp : cstr → list cstr → Env → option Z
    (* [execvp(file, argv)] under an environment: [None] when the image is
       replaced, [Some e] when the call returns -1 with [errno = e] *)
}.

Definition fopen (os : Sys) (path : string) : option FILE :=
  sys_files os !! path.

(** [load_environment(path, buf, buflen)], lines 74-130. *)
Definition load_environment (os : Sys) (path : string) (c0 : byte)
    (buf : list byte) (buflen : Z) (env : Env) (errno : Z)
    : option (Z * env_state) :=
  match fopen os path with
  | None => Some (-1, EnvState [] c0 buf env errno)
  | Some f => load_environment_on (sys_fclose os) f c0 buf buflen env errno
  end.

(** ** [readlines] *)

(** The bytes one [fgets] takes from the stream: up to and including the
    first newline, and at most [room] of them. *)
Fixpoint take_line (room : Z) (f : FILE) : list byte * FILE :=
  match f with
  | [] => ([], [])
  | b :: f' =>
      if room <=? 0 then ([], f)
      else if decide (b = newline) then ([b], f')
      else let '(l, r) := take_line (room - 1) f' in (b :: l, r)
  end.

(** [fgets(buf, size, f)]: [None] for a [NULL] result (end of file before
    any byte, or no room), else the buffer with the bytes taken and a NUL
    stored at its start.  With [size = 1] glibc stores the empty string and
    reads nothing. *)
Definition fgets (buf : list byte) (size : Z) (f : FILE)
    : option (list byte) * FILE :=
  if size <=? 0 then (None, f)
  else if size =? 1 then (Some (<[0%nat := NUL]> buf), f)
  else
    match take_line (size - 1) f with
    | ([], f') => (None, f')
    | (l, f') => (Some (list_inserts 0 (l ++ [NUL]) buf), f')
    end.

(** A store [a[i] = x] that is checked against the array's bounds: [None]
    is a store outside the array. *)
Definition store {A} (a : list A) (i : Z) (x : A) : option (list A) :=
  if (0 <=? i) && (i <? Z.of_nat (length a))
  then Some (<[Z.to_nat i := x]> a) else None.

(** An array of [char*]: [None] is [NULL]. *)
Abbreviation ptr_array := (list (option cstr)).

(** Lines 55-61, entered with [k] turns left before [n < maxlines-1]
    fails.  Gives [n], the stream, the buffer and [lines]; [None] when a
    token is stored outside [lines]. *)
Fixpoint readlines_loop (k : nat) (n : Z) (f : FILE) (buf : list byte)
    (buflen : Z) (lines : ptr_array)
    : option (Z * FILE * list byte * ptr_array) :=
  match k with
  | O => Some (n, f, buf, lines)
  | S k' =>
      match fgets buf buflen f with
      | (None, f') => Some (n, f', buf, lines)
      | (Some buf', f') =>
          let line := cstring buf' in
          let tok := strndup line ((strlen line - 1) mod SIZE_MOD) in
          match store lines n (Some tok) with
          | None => None
          | Some lines' => readlines_loop k' (n + 1) f' buf' buflen lines'
          end
      end
  end.

Inductive rl_result :=
| RlReturn (ret : Z) (lines : ptr_array) (buf : list byte) (errno : Z)
| RlOverrun.  (* a store past the end of [lines] *)

(** [readlines(path, buf, buflen, lines, maxlines)], lines 41-70.  (What a
    failed [fopen] leaves in [errno] is not modelled: [main] exits on it.) *)
Definition readlines (os : Sys) (path : string) (buf : list byte)
    (buflen : Z) (lines : ptr_array) (maxlines : Z) (errno : Z)
    : rl_result :=
  match fopen os path with
  | None => RlReturn (-1) lines buf errno
  | Some f =>
      let errno := 0 in
      match readlines_loop (Z.to_nat (maxlines - 1)) 0 f buf buflen lines with
      | None => RlOverrun
      | Some (n, f', buf', lines') =>
          if negb (errno =? 0) then RlReturn (-1) lines' buf' errno
          else if negb (sys_fclose os =? 0) then RlReturn (-1) lines' buf' errno
          else
            match store lines' n None with
            | None => RlOverrun
            | Some lines'' => RlReturn n lines'' buf' errno
            end
      end
  end.

(** ** [writefifo] *)

(** [writefifo(fifo, msg)], lines 22-38: the status and the bytes that
    went into the pipe. *)
Definition writefifo (os : Sys) (fifo : string) (msg : cstr)
    : Z * list byte :=
  let fd := sys_open os fifo in
  if fd =? -1 then (-1, [])
  else
    let w := sys_write os fd msg (strlen msg) in
    if w =? -1 then (-1, [])
    else (sys_close os fd, take (Z.to_nat w) msg).

(** ** [main] *)

(** [strncpy(dest, src, n)]: [n] stores, of the bytes of [src] and then of
    NULs; [None] when one of them falls outside [dest]. *)
Fixpoint strncpy_from (k : nat) (i : Z) (dest : list byte) (src : cstr)
    : option (list byte) :=
  match k with
  | O => Some dest
  | S k' =>
      match store dest i (default NUL (src !! Z.to_nat i)) with
      | None => None
      | Some dest' => strncpy_from k' (i + 1) dest' src
      end
  end.

Definition strncpy (dest : list byte) (src : cstr) (n : Z)
    : option (list byte) :=
  strncpy_from (Z.to_nat n) 0 dest src.

Definition PREFIX : string := "/.crio-lxc/".
Definition runtime_path (name : string) : string := PREFIX +:+ name.
Definition syncfifo : string := runtime_path "syncfifo".
Definition cmdline_path : string := runtime_path "cmdline.txt".
Definition environ_path : string := runtime_path "environ".

(** [sizeof] of the arrays of [main], with 8-byte pointers. *)
Definition sizeof_pointer : Z := 8.
Definition BUF_SIZE : Z := 1024 * 1024.
Definition ARGS_LEN : Z := 256.
Definition sizeof_args : Z := ARGS_LEN * sizeof_pointer.
Definition PNAME_SIZE : Z := 16.

(** Lines 151-152: the process name prepared from the identifier. *)
Definition prepare_pname (pname : list byte) (cid : cstr)
    : option (list byte) :=
  match strncpy pname cid PNAME_SIZE with
  | None => None
  | Some pname' => store pname' (PNAME_SIZE - 1) NUL
  end.

(** The strings of a NULL-terminated [argv]. *)
Fixpoint argv_list (a : ptr_array) : list cstr :=
  match a with
  | Some s :: a' => s :: argv_list a'
  | _ => []
  end.

(** What the process starts from: its arguments, environment and [errno],
    the operating system, and the contents of the locals it does not
    initialise. *)
Record World := {
  w_argv : list cstr;
  w_env : Env;
  w_errno : Z;
  w_sys : Sys;
  stack_buf : list byte;       (* [char buf[1024*1024]] *)
  stack_args : ptr_array;      (* [char *args[256]] *)
  stack_pname : list byte;     (* [char pname[16]] *)
  stack_c : byte               (* [char c] of [load_environment] *)
}.

(** The arrays have their declared lengths. *)
Definition stack_ok (w : World) : Prop :=
  Z.of_nat (length (stack_buf w)) = BUF_SIZE ∧
  Z.of_nat (length (stack_args w)) = ARGS_LEN ∧
  Z.of_nat (length (stack_pname w)) = PNAME_SIZE.

(** What an observer sees of a run. *)
Inductive event :=
| Usage (argc : Z)                 (* the usage line on stderr *)
| Perror (msg : string)            (* [perror(msg)] *)
| SetName (name : cstr)            (* the process name was set *)
| FifoWrite (payload : list byte)  (* bytes written into the sync pipe *)
| ExecReturned (e : Z).            (* [execvp] came back with [errno = e];
                                      the program prints nothing *)

Inductive undefined :=
| PnameOverrun      (* store outside [pname] *)
| ArgsOverrun       (* store outside [args] *)
| ExecvpNullFile.   (* [execvp] called with a NULL file name *)

Inductive ending :=
| Exited (status : Z)
    (* [exit(status)], or return from [main] *)
| Replaced (file : cstr) (argv : list cstr) (env : Env)
    (* [execvp] succeeded *)
| Undefined (u : undefined)
| Unfinished.
    (* the fuel of [load_environment] ran out: never the case, see
       [load_environment_total] *)

(** What [writefifo(fifo, msg)] lets an observer of the pipe see: nothing
    when [open] or [write] fails (lines 31-35), the bytes [write] took
    otherwise, whatever [close] returns afterwards (line 37). *)
Definition fifo_events (os : Sys) (fifo : string) (msg : cstr)
    : list event :=
  let fd := sys_open os fifo in
  if fd =? -1 then []
  else
    let w := sys_write os fd msg (strlen msg) in
    if w =? -1 then [] else [FifoWrite (take (Z.to_nat w) msg)].

(** Lines 166-178: from [prctl] to the end of [main].  [writefifo] also
    returns -1 when [close] fails after a [write] that went through: the
    bytes are in the pipe then, and the diagnostic follows them. *)
Definition notify_and_exec (os : Sys) (pname : list byte) (cid : cstr)
    (args : ptr_array) (env : Env) : list event * ending :=
  let name := cstring pname in
  let tr1 :=
    if sys_prctl_set_name os name =? -1
    then [Perror "failed to set process name"] else [SetName name] in
  let '(r, sent) := writefifo os syncfifo cid in
  if r =? -1
  then (tr1 ++ fifo_events os syncfifo cid
          ++ [Perror "failed to write syncfifo"], Exited 1)
  else
    let tr2 := tr1 ++ [FifoWrite sent] in
    match args with
    | Some file :: _ =>
        match sys_execvp os file (argv_list args) env with
        | None => (tr2, Replaced file (argv_list args) env)
        | Some e => (tr2 ++ [ExecReturned e], Exited 0)
        end
    | _ => (tr2, Undefined ExecvpNullFile)
    end.

(** [main(argc, argv)], lines 132-178.  Falling off the end of [main]
    is [return 0]. *)
Definition main (w : World) : list event * ending :=
  let os := w_sys w in
  let argc := Z.of_nat (length (w_argv w)) in
  if negb (argc =? 2) then ([Usage argc], Exited 1)
  else
    let cid := default [] (w_argv w !! 1%nat) in
    match prepare_pname (stack_pname w) cid with
    | None => ([], Undefined PnameOverrun)
    | Some pname =>
        match readlines os cmdline_path (stack_buf w) BUF_SIZE
                (stack_args w) sizeof_args (w_errno w) with
        | RlOverrun => ([], Undefined ArgsOverrun)
        | RlReturn r args buf errno =>
            if r =? -1
            then ([Perror "failed to read cmdline file"], Exited 1)
            else
              match load_environment os environ_path (stack_c w) buf
                      BUF_SIZE (w_env w) errno with
              | None => ([], Unfinished)
              | Some (r, s) =>
                  if r =? -1
                  then ([Perror "failed to read environment file"], Exited 1)
                  else notify_and_exec os pname cid args (es_env s)
              end
        end
    end.

(** * Vocabulary of the statements *)

(** Bytes that the reader copies and goes on: in a key, anything but NUL,
    0xFF and '='; in a value, anything but NUL and 0xFF. *)
Definition value_byte (b : byte) : Prop := b ≠ NUL ∧ b ≠ xff.
Definition key_byte (b : byte) : Prop := value_byte b ∧ b ≠ equals_sign.

Definition plain (value : option Z) (b : byte) : Prop :=
  match value with
  | None => key_byte b
  | Some _ => value_byte b
  end.

#[global] Instance value_byte_dec b : Decision (value_byte b).
Proof. unfold value_byte. apply _. Defined.

#[global] Instance key_byte_dec b : Decision (key_byte b).
Proof. unfold key_byte. apply _. Defined.

(** The bytes of a record [key=value] with its terminator, and of a stream
    of such records. *)
Definition record_bytes (kv : cstr * cstr) : list byte :=
  kv.1 ++ equals_sign :: kv.2 ++ [NUL].

Definition environ_bytes (recs : list (cstr * cstr)) : list byte :=
  concat (record_bytes <$> recs).

(** A record is well formed for a buffer of [buflen] bytes when its key is
    not empty and free of NUL, '=' and 0xFF, its value is free of NUL and
    0xFF, and the record with its terminator fits the buffer. *)
Definition well_formed_record (buflen : Z) (kv : cstr * cstr) : Prop :=
  kv.1 ≠ [] ∧ Forall key_byte kv.1 ∧ Forall value_byte kv.2 ∧
  Z.of_nat (length kv.1) + Z.of_nat (length kv.2) + 2 ≤ buflen.

#[global] Instance well_formed_record_dec buflen kv :
  Decision (well_formed_record buflen kv).
Proof. unfold well_formed_record. apply _. Defined.

(** The environment after the pairs are set one after the other. *)
Definition install (recs : list (cstr * cstr)) (env : Env) : Env :=
  foldl (λ e kv, <[kv.1 := kv.2]> e) env recs.

(** The value of the last record that has the key [key]. *)
Fixpoint last_value (key : cstr) (recs : list (cstr * cstr)) : option cstr :=
  match recs with
  | [] => None
  | kv :: recs' =>
      match last_value key recs' with
      | Some v => Some v
      | None => if decide (kv.1 = key) then Some kv.2 else None
      end
  end.

(** Two states of the loop that agree on everything but the stream: the
    second still has the byte 0xFF and [post] behind what the first has
    left, or the first met the end of its stream where the second read the
    byte 0xFF. *)
Definition cut_at (post : list byte) (s1 s2 : env_state) : Prop :=
  es_c s2 = es_c s1 ∧ es_buf s2 = es_buf s1 ∧ es_env s2 = es_env s1 ∧
  es_errno s2 = es_errno s1 ∧
  (es_file s2 = es_file s1 ++ xff :: post ∨
   (es_file s1 = [] ∧ es_file s2 = post ∧ es_c s1 = xff)).

Definition INT_MAX : Z := 2 ^ 31 - 1.

(** The bytes of a file of newline-terminated lines. *)
Definition lines_bytes (ls : list cstr) : list byte :=
  concat ((λ l, l ++ [newline]) <$> ls).

(** A line is well formed for a buffer of [buflen] bytes when it holds no
    newline and no NUL and fits the buffer with its newline and the
    terminator [fgets] adds. *)
Definition well_formed_line (buflen : Z) (l : cstr) : Prop :=
  (newline ∉ l) ∧ (NUL ∉ l) ∧ Z.of_nat (length l) + 2 ≤ buflen.

#[global] Instance well_formed_line_dec buflen l :
  Decision (well_formed_line buflen l).
Proof. unfold well_formed_line. apply _. Defined.

(** What [strncpy] stores at position [j]: the byte of the source, or NUL
    behind its end. *)
Definition padded (src : cstr) (j : nat) : byte := default NUL (src !! j).

(** A system where the two staged files hold [cmdline] and [environ], a
    reader waits on the pipe, every call on it succeeds, and [execvp] does
    what [exec] says. *)
Definition quiet_sys (cmdline environ : list byte) (exec : option Z) : Sys := {|
  sys_files := <[cmdline_path := cmdline]> (<[environ_path := environ]> ∅);
  sys_fclose := 0;
  sys_open := λ _, 3;
  sys_write := λ _ _ count, count;
  sys_close := λ _, 0;
  sys_prctl_set_name := λ _, 0;
  sys_execvp := λ _ _ _, exec
|}.

(** The process started as [crio-lxc-init c1] on that system, with an empty
    environment. *)
Definition staged_world (cmdline environ : list byte) (exec : option Z)
    : World := {|
  w_argv := [bytes_of "crio-lxc-init"; bytes_of "c1"];
  w_env := ∅;
  w_errno := 0;
  w_sys := quiet_sys cmdline environ exec;
  stack_buf := replicate (Z.to_nat BUF_SIZE) NUL;
  stack_args := replicate (Z.to_nat ARGS_LEN) None;
  stack_pname := replicate (Z.to_nat PNAME_SIZE) NUL;
  stack_c := NUL
|}.

(** [cmdline.txt] and [environ] of the examples. *)
Definition echo_hello : list cstr := [bytes_of "/bin/echo"; bytes_of "hello"].
Definition foo_bar : list (cstr * cstr) := [(bytes_of "FOO", bytes_of "bar")].

(** Records with a key that comes twice. *)
Definition a_b_a : list (cstr * cstr) :=
  [(bytes_of "A", bytes_of "1"); (bytes_of "B", bytes_of "2");
   (bytes_of "A", bytes_of "3")].

(** A pipe that takes one byte of each [write]. *)
Definition one_byte_sys : Sys := {|
  sys_files := ∅;
  sys_fclose := 0;
  sys_open := λ _, 3;
  sys_write := λ _ _ _, 1;
  sys_close := λ _, 0;
  sys_prctl_set_name := λ _, 0;
  sys_execvp := λ _ _ _, None
|}.

(** What a run leaves of a stream and does to a buffer of which it may use
    [buflen] bytes: the stream has lost bytes from its front only, and the
    buffer has its length and, from index [buflen] on, its contents. *)
Definition framed (buflen : Z) (f : FILE) (buf : list byte)
    (f' : FILE) (buf' : list byte) : Prop :=
  f' `suffix_of` f ∧ length buf' = length buf ∧
  drop (Z.to_nat buflen) buf' = drop (Z.to_nat buflen) buf.

(** The statuses of [load_environment]. *)
Definition env_status (fclose_res r : Z) : Prop :=
  r = -1 ∨ r = E2BIG ∨ r = EINVAL ∨ r = fclose_res.

(** Two states of [load_environment] that differ in the contents of the
    buffer at most. *)
Definition same_but_buf (s1 s2 : env_state) : Prop :=
  es_file s1 = es_file s2 ∧ es_c s1 = es_c s2 ∧ es_env s1 = es_env s2 ∧
  es_errno s1 = es_errno s2 ∧ length (es_buf s1) = length (es_buf s2).

(** As many one-letter lines as [args] has cells. *)
Definition full_house : list cstr := replicate 256 (bytes_of "a").

(** The result of [readlines] is an [argv] of [n] strings: [n] cells that
    are not NULL, and then a NULL. *)
Definition argv_of_length (n : Z) (lines : ptr_array) : Prop :=
  Z.of_nat (length (argv_list lines)) = n ∧
  lines !! Z.to_nat n = Some None.

(** The world [w] with another answer of [prctl], with other contents of
    the uninitialised [buf], and with other files. *)
Definition set_prctl (answer : cstr → Z) (w : World) : World := {|
  w_argv := w_argv w;
  w_env := w_env w;
  w_errno := w_errno w;
  w_sys := {|
    sys_files := sys_files (w_sys w);
    sys_fclose := sys_fclose (w_sys w);
    sys_open := sys_open (w_sys w);
    sys_write := sys_write (w_sys w);
    sys_close := sys_close (w_sys w);
    sys_prctl_set_name := answer;
    sys_execvp := sys_execvp (w_sys w)
  |};
  stack_buf := stack_buf w;
  stack_args := stack_args w;
  stack_pname := stack_pname w;
  stack_c := stack_c w
|}.

Definition set_stack_buf (buf : list byte) (w : World) : World := {|
  w_argv := w_argv w;
  w_env := w_env w;
  w_errno := w_errno w;
  w_sys := w_sys w;
  stack_buf := buf;
  stack_args := stack_args w;
  stack_pname := stack_pname w;
  stack_c := stack_c w
|}.

(** The events that are a line on the error stream. *)
Definition is_diagnostic (e : event) : Prop :=
  match e with
  | Usage _ | Perror _ => True
  | _ => False
  end.

(** The process started with the arguments [argv] on a system that holds
    the files [files] and where every other call succeeds. *)
Definition bare_world (files : gmap string (list byte)) (argv : list cstr)
    : World := {|
  w_argv := argv;
  w_env := ∅;
  w_errno := 0;
  w_sys := {|
    sys_files := files;
    sys_fclose := 0;
    sys_open := λ _, 3;
    sys_write := λ _ _ count, count;
    sys_close := λ _, 0;
    sys_prctl_set_name := λ _, 0;
    sys_execvp := λ _ _ _, None
  |};
  stack_buf := replicate (Z.to_nat BUF_SIZE) NUL;
  stack_args := replicate (Z.to_nat ARGS_LEN) None;
  stack_pname := replicate (Z.to_nat PNAME_SIZE) NUL;
  stack_c := NUL
|}.

(** * Properties *)

(** Closes a decidable goal without variables by evaluation. *)
Ltac decide_closed := apply (bool_decide_unpack _); by vm_compute.

(** Settle a test [_ <? _] that holds, or a test [_ =? _] that fails, from
    the context. *)
Ltac in_bounds := rewrite (proj2 (Z.ltb_lt _ _)) by (done || lia).
Ltac differs := rewrite (proj2 (Z.eqb_neq _ _)) by (done || lia).

(** ** Characters *)

Lemma char_is_EOF c : (char_to_int c =? EOF) = bool_decide (c = xff).
Proof. destruct c; vm_compute; reflexivity. Qed.

Lemma char_is_NUL c : (char_to_int c =? 0) = bool_decide (c = NUL).
Proof. destruct c; vm_compute; reflexivity. Qed.

Lemma char_is_equals c :
  (char_to_int c =? char_to_int equals_sign) = bool_decide (c = equals_sign).
Proof. destruct c; vm_compute; reflexivity. Qed.

Lemma int_to_char_unsigned b : int_to_char (byte.unsigned b) = b.
Proof. apply byte.of_Z_unsigned. Qed.

Lemma int_to_char_EOF : int_to_char EOF = xff.
Proof. reflexivity. Qed.

(** ** Strings in arrays *)

Lemma cstring_app_NUL (s m : list byte) :
  NUL ∉ s → cstring (s ++ NUL :: m) = s.
Proof.
  induction s as [|b s IH]; intros Hs; [done|]. simpl.
  apply not_elem_of_cons in Hs as [Hb Hs].
  rewrite decide_False by congruence. by rewrite IH.
Qed.

Lemma cstring_no_NUL (m : list byte) : NUL ∉ cstring m.
Proof.
  induction m as [|b m IH]; simpl; [apply not_elem_of_nil|].
  case_decide; [apply not_elem_of_nil|].
  apply not_elem_of_cons. split; [congruence|done].
Qed.

Lemma list_inserts_0_app {A} (data buf : list A) :
  (length data ≤ length buf)%nat →
  list_inserts 0 data buf = data ++ drop (length data) buf.
Proof.
  intros Hlen. rewrite <-(take_drop (length data) buf) at 1.
  apply list_inserts_0_r. rewrite length_take. lia.
Qed.

Lemma cstring_at_0 buf : cstring_at buf 0 = cstring buf.
Proof. reflexivity. Qed.

Lemma cstring_at_app (pre m : list byte) (off : Z) :
  off = Z.of_nat (length pre) → cstring_at (pre ++ m) off = cstring m.
Proof.
  intros ->. unfold cstring_at. rewrite Nat2Z.id.
  by rewrite drop_app_length.
Qed.

(** ** The record reader *)

Section Reader.

Context (buflen : Z).

Lemma plain_value_byte value b : plain value b → value_byte b.
Proof. destruct value; [done|]. by intros [? _]. Qed.

Lemma read_record_stop f i c buf value :
  buflen ≤ i → read_record buflen f i c buf value = ForDone f c buf value.
Proof.
  intros Hi. destruct f; simpl;
    by rewrite (proj2 (Z.ltb_ge i buflen)).
Qed.

Lemma read_record_eof i c buf value :
  i < buflen →
  read_record buflen [] i c buf value
  = ForDone [] xff (<[Z.to_nat i := NUL]> buf) value.
Proof. intros Hi. simpl. by in_bounds. Qed.

Lemma read_record_xff f i c buf value :
  i < buflen →
  read_record buflen (xff :: f) i c buf value
  = ForDone f xff (<[Z.to_nat i := NUL]> buf) value.
Proof. intros Hi. simpl. by in_bounds. Qed.

Lemma read_record_NUL f i c buf value :
  i < buflen →
  read_record buflen (NUL :: f) i c buf value
  = ForDone f NUL (<[Z.to_nat i := NUL]> buf) value.
Proof. intros Hi. simpl. by in_bounds. Qed.

Lemma read_record_full b f i c buf value :
  value_byte b → i < buflen → i = buflen - 1 →
  read_record buflen (b :: f) i c buf value
  = ForReturn E2BIG f b (<[Z.to_nat i := b]> buf).
Proof.
  intros [Hn He] Hi Hlast. simpl.
  in_bounds. simpl.
  rewrite int_to_char_unsigned, char_is_EOF, char_is_NUL.
  rewrite !bool_decide_eq_false_2 by done.
  by rewrite (proj2 (Z.eqb_eq i (buflen - 1))).
Qed.

Lemma read_record_plain b f i c buf value :
  plain value b → i < buflen - 1 →
  read_record buflen (b :: f) i c buf value
  = read_record buflen f (i + 1) b (<[Z.to_nat i := b]> buf) value.
Proof.
  intros Hb Hi. simpl.
  in_bounds. simpl.
  rewrite int_to_char_unsigned, char_is_EOF, char_is_NUL.
  destruct (plain_value_byte _ _ Hb) as [Hn He].
  rewrite !bool_decide_eq_false_2 by done.
  differs.
  destruct value as [off|]; [done|].
  rewrite char_is_equals. destruct Hb as [_ Hb].
  by rewrite bool_decide_eq_false_2.
Qed.

Lemma read_record_equals f i c buf :
  i < buflen - 1 →
  read_record buflen (equals_sign :: f) i c buf None
  = read_record buflen f (i + 1) equals_sign (<[Z.to_nat i := NUL]> buf)
      (Some (i + 1)).
Proof.
  intros Hi. simpl.
  in_bounds. simpl.
  differs.
  by rewrite list_insert_insert_eq.
Qed.

(** The incoming value of [c] is dead as soon as the loop is entered. *)
Lemma read_record_c f i c c' buf value :
  i < buflen →
  read_record buflen f i c buf value = read_record buflen f i c' buf value.
Proof.
  intros Hi. destruct f; simpl;
    by in_bounds.
Qed.

Lemma read_record_prefix data f i c buf value :
  Forall (plain value) data → 0 ≤ i →
  i + Z.of_nat (length data) < buflen →
  read_record buflen (data ++ f) i c buf value
  = read_record buflen f (i + Z.of_nat (length data)) c
      (list_inserts (Z.to_nat i) data buf) value.
Proof.
  intros Hdata. revert i c buf.
  induction Hdata as [|b data Hb Hdata IH]; intros i c buf Hi Hlen;
    cbn [length app list_inserts] in *.
  - by rewrite Z.add_0_r.
  - rewrite read_record_plain by (done || lia).
    rewrite IH by lia.
    rewrite (read_record_c _ _ b c) by lia.
    replace (Z.to_nat (i + 1)) with (S (Z.to_nat i)) by lia.
    rewrite <-list_insert_inserts_lt by lia.
    f_equal. lia.
Qed.

(** Writes at the end of what has been written so far. *)
Lemma insert_at_app {A} (pre rest : list A) (x : A) :
  <[length pre := x]> (pre ++ rest) = pre ++ <[0%nat := x]> rest.
Proof.
  rewrite insert_app_r_alt by lia. by rewrite Nat.sub_diag.
Qed.

Lemma inserts_at_app {A} (pre data rest : list A) :
  (length data ≤ length rest)%nat →
  list_inserts (length pre) data (pre ++ rest)
  = pre ++ data ++ drop (length data) rest.
Proof.
  intros Hlen.
  rewrite <-(Nat.add_0_r (length pre)), list_inserts_app_r.
  by rewrite list_inserts_0_app.
Qed.

Lemma insert_0_drop {A} (l : list A) (n : nat) (x : A) :
  (n < length l)%nat → <[0%nat := x]> (drop n l) = x :: drop (S n) l.
Proof.
  intros Hn. destruct (drop n l) as [|y l'] eqn:E.
  - apply (f_equal length) in E. rewrite length_drop in E. simpl in E. lia.
  - simpl. f_equal.
    replace (S n) with (n + 1)%nat by lia. by rewrite <-drop_drop, E.
Qed.

(** A whole record, [key=value] and its NUL, that fits the buffer: the
    key and the value end up in the buffer, each with a terminator, and
    [value] points behind the first '='. *)
Lemma read_record_pair k v f c buf :
  Forall key_byte k → Forall value_byte v →
  Z.of_nat (length k) + Z.of_nat (length v) + 2 ≤ buflen →
  buflen ≤ Z.of_nat (length buf) →
  read_record buflen (k ++ equals_sign :: v ++ NUL :: f) 0 c buf None
  = ForDone f NUL
      (k ++ NUL :: v ++ NUL :: drop (length k + length v + 2) buf)
      (Some (Z.of_nat (length k) + 1)).
Proof.
  intros Hk Hv Hfit Hbuf.
  rewrite read_record_prefix by (done || lia).
  rewrite read_record_equals by lia.
  rewrite read_record_prefix by (done || lia).
  rewrite read_record_NUL by lia.
  f_equal.
  rewrite list_inserts_0_app by lia.
  replace (Z.to_nat (0 + Z.of_nat (length k))) with (length k) by lia.
  rewrite insert_at_app, insert_0_drop by lia.
  set (k0 := k ++ [NUL]).
  replace (k ++ NUL :: drop (S (length k)) buf)
    with (k0 ++ drop (S (length k)) buf)
    by (unfold k0; by rewrite <-app_assoc).
  replace (Z.to_nat (0 + Z.of_nat (length k) + 1)) with (length k0)
    by (unfold k0; rewrite length_app; simpl; lia).
  rewrite inserts_at_app by (rewrite length_drop; lia).
  rewrite drop_drop, app_assoc.
  replace (Z.to_nat (0 + Z.of_nat (length k) + 1 + Z.of_nat (length v)))
    with (length (k0 ++ v))
    by (unfold k0; rewrite !length_app; simpl; lia).
  rewrite insert_at_app, insert_0_drop by lia.
  unfold k0. rewrite <-!app_assoc. simpl.
  by replace (S (S (length k + length v))) with (length k + length v + 2)%nat
    by lia.
Qed.

(** A record with no '=' before its NUL. *)
Lemma read_record_no_equals k f c buf :
  Forall key_byte k → Z.of_nat (length k) < buflen →
  read_record buflen (k ++ NUL :: f) 0 c buf None
  = ForDone f NUL (<[length k := NUL]> (list_inserts 0 k buf)) None.
Proof.
  intros Hk Hfit.
  rewrite read_record_prefix by (done || lia).
  rewrite read_record_NUL by lia.
  do 2 f_equal. lia.
Qed.

(** A record that fills the buffer before its NUL. *)
Lemma read_record_too_big data b f c buf value :
  Forall (plain value) data → value_byte b →
  Z.of_nat (length data) = buflen - 1 →
  read_record buflen (data ++ b :: f) 0 c buf value
  = ForReturn E2BIG f b
      (<[length data := b]> (list_inserts 0 data buf)).
Proof.
  intros Hdata Hb Hlen.
  rewrite read_record_prefix by (done || lia).
  rewrite read_record_full by (done || lia).
  do 2 f_equal. lia.
Qed.

(** The stream never grows, and a turn that finds a '=' has read a byte. *)
Lemma read_record_consumes f i c buf value f' c' buf' value' :
  read_record buflen f i c buf value = ForDone f' c' buf' value' →
  (length f' ≤ length f)%nat ∧
  (value = None → value' ≠ None → (length f' < length f)%nat).
Proof.
  revert i c buf value.
  induction f as [|b f IH]; intros i c buf value H; simpl in H.
  - destruct (negb (i <? buflen)); inversion H; subst; split;
      done || congruence.
  - destruct (negb (i <? buflen));
      [inversion H; subst; split; done || congruence|].
    destruct (char_to_int _ =? EOF);
      [inversion H; subst; simpl; split; [lia|congruence]|].
    destruct (char_to_int _ =? 0);
      [inversion H; subst; simpl; split; [lia|congruence]|].
    destruct (i =? buflen - 1); [discriminate|].
    destruct value as [off|].
    + apply IH in H as [Hle _]. simpl. split; [lia|done].
    + destruct (char_to_int _ =? char_to_int equals_sign);
        apply IH in H as [Hle Hlt]; simpl; split; auto with lia.
Qed.

(** ** One turn of the [while] loop *)

Lemma Forall_excludes {A} (P : A → Prop) (x : A) (l : list A) :
  Forall P l → ¬ P x → x ∉ l.
Proof. intros Hl Hx Hin. apply Hx. by eapply Forall_forall in Hl. Qed.

Lemma key_bytes_no_NUL k : Forall key_byte k → NUL ∉ k.
Proof. intros Hk. apply (Forall_excludes _ _ _ Hk). by intros [[? _] _]. Qed.

Lemma key_bytes_no_equals k : Forall key_byte k → equals_sign ∉ k.
Proof. intros Hk. apply (Forall_excludes _ _ _ Hk). by intros [_ ?]. Qed.

Lemma value_bytes_no_NUL v : Forall value_byte v → NUL ∉ v.
Proof. intros Hv. apply (Forall_excludes _ _ _ Hv). by intros [? _]. Qed.

Lemma setenv_ok k v env errno :
  k ≠ [] → equals_sign ∉ k →
  setenv k v env errno = (0, <[k := v]> env, errno).
Proof.
  intros Hne Hk. unfold setenv.
  rewrite decide_False; [done|]. by intros [?|?].
Qed.

Lemma load_record_pair k v f c buf env :
  k ≠ [] → Forall key_byte k → Forall value_byte v →
  Z.of_nat (length k) + Z.of_nat (length v) + 2 ≤ buflen →
  buflen ≤ Z.of_nat (length buf) →
  load_record buflen
    (EnvState (k ++ equals_sign :: v ++ NUL :: f) c buf env 0)
  = Again (EnvState f NUL
             (k ++ NUL :: v ++ NUL :: drop (length k + length v + 2) buf)
             (<[k := v]> env) 0).
Proof.
  intros Hne Hk Hv Hfit Hbuf. unfold load_record. simpl.
  rewrite read_record_pair by done. simpl.
  rewrite cstring_at_0, cstring_app_NUL by by apply key_bytes_no_NUL.
  rewrite (cons_middle NUL k), app_assoc.
  rewrite cstring_at_app by (rewrite length_app; simpl; lia).
  rewrite cstring_app_NUL by by apply value_bytes_no_NUL.
  rewrite setenv_ok by (done || by apply key_bytes_no_equals).
  simpl. by rewrite <-app_assoc.
Qed.

(** A record with no '=': the invalid-record status. *)
Lemma load_record_no_equals k f c buf env :
  Forall key_byte k → Z.of_nat (length k) < buflen →
  load_record buflen (EnvState (k ++ NUL :: f) c buf env 0)
  = Return EINVAL
      (EnvState f NUL (<[length k := NUL]> (list_inserts 0 k buf)) env 0).
Proof.
  intros Hk Hfit. unfold load_record. simpl.
  by rewrite read_record_no_equals.
Qed.

(** A record that fills the buffer: the capacity status. *)
Lemma load_record_too_big data b f c buf env errno :
  Forall key_byte data → value_byte b →
  Z.of_nat (length data) = buflen - 1 →
  load_record buflen (EnvState (data ++ b :: f) c buf env errno)
  = Return E2BIG
      (EnvState f b (<[length data := b]> (list_inserts 0 data buf))
         env errno).
Proof.
  intros Hdata Hb Hlen. unfold load_record. simpl.
  by rewrite (read_record_too_big _ _ _ _ _ None).
Qed.

(** The end of the stream where a record should start: the turn finds no
    '=' and gives the invalid-record status. *)
Lemma load_record_at_eof c buf env :
  ∃ c' buf',
    load_record buflen (EnvState [] c buf env 0)
    = Return EINVAL (EnvState [] c' buf' env 0).
Proof.
  unfold load_record. simpl.
  destruct (negb (0 <? buflen)); simpl; eauto.
Qed.

End Reader.

(** ** The [while] loop *)

Lemma env_loop_unfold fuel fclose_res buflen s :
  env_loop (S fuel) fclose_res buflen s
  = if negb (char_to_int (es_c s) =? EOF) then
      match load_record buflen s with
      | Return code s' => Some (code, s')
      | Again s' => env_loop fuel fclose_res buflen s'
      end
    else if negb (es_errno s =? 0) then Some (-1, s)
    else Some (fclose_res, s).
Proof. reflexivity. Qed.

(** More fuel does not change a result. *)
Lemma env_loop_mono fuel fuel' fclose_res buflen s r :
  env_loop fuel fclose_res buflen s = Some r → (fuel ≤ fuel')%nat →
  env_loop fuel' fclose_res buflen s = Some r.
Proof.
  revert fuel' s.
  induction fuel as [|fuel IH]; intros fuel' s H Hle; [done|].
  destruct fuel' as [|fuel']; [lia|].
  rewrite env_loop_unfold in *.
  destruct (negb (char_to_int (es_c s) =? EOF)); [|done].
  destruct (load_record buflen s) as [code s'|s']; [done|].
  apply IH; [done|lia].
Qed.

(** A turn that goes round again has read at least one byte. *)
Lemma load_record_again buflen s s' :
  load_record buflen s = Again s' →
  (length (es_file s') < length (es_file s))%nat.
Proof.
  unfold load_record.
  destruct (read_record _ _ _ _ _ _) as [f c buf value|] eqn:E; [|done].
  apply read_record_consumes in E as [_ Hlt].
  destruct (negb (es_errno s =? 0)); [done|].
  destruct value as [off|]; [|done].
  destruct (setenv _ _ _ _) as [[r env] errno].
  destruct (negb (r =? 0)); [done|].
  intros [= <-]. simpl. by apply Hlt.
Qed.

Lemma env_loop_total fuel fclose_res buflen s :
  (length (es_file s) + 2 ≤ fuel)%nat →
  is_Some (env_loop fuel fclose_res buflen s).
Proof.
  revert s. induction fuel as [|fuel IH]; intros s Hfuel; [lia|].
  rewrite env_loop_unfold.
  destruct (negb (char_to_int (es_c s) =? EOF)).
  - destruct (load_record buflen s) as [code s'|s'] eqn:E; [by eexists|].
    apply load_record_again in E. apply IH. lia.
  - destruct (negb (es_errno s =? 0)); by eexists.
Qed.

(** [load_environment] returns: the model never runs out of fuel. *)
Lemma load_environment_on_total fclose_res f c0 buf buflen env errno :
  is_Some (load_environment_on fclose_res f c0 buf buflen env errno).
Proof. apply env_loop_total. simpl. lia. Qed.

Lemma load_environment_total os path c0 buf buflen env errno :
  is_Some (load_environment os path c0 buf buflen env errno).
Proof.
  unfold load_environment. destruct (fopen os path); [|by eexists].
  apply load_environment_on_total.
Qed.

(** ** Well-formed environment streams *)

Lemma install_lookup recs env key :
  install recs env !! key
  = match last_value key recs with
    | Some v => Some v
    | None => env !! key
    end.
Proof.
  revert env. induction recs as [|kv recs IH]; intros env; [done|].
  change (install (kv :: recs) env)
    with (install recs (<[kv.1 := kv.2]> env)).
  rewrite IH. simpl.
  destruct (last_value key recs); [done|].
  case_decide as Hk.
  - subst. by rewrite lookup_insert_eq.
  - by rewrite lookup_insert_ne.
Qed.

Lemma environ_bytes_cons kv recs f :
  environ_bytes (kv :: recs) ++ f
  = kv.1 ++ equals_sign :: kv.2 ++ NUL :: (environ_bytes recs ++ f).
Proof.
  unfold environ_bytes, record_bytes. simpl.
  rewrite <-!app_assoc. simpl. by rewrite <-!app_assoc.
Qed.

Lemma environ_bytes_length recs :
  (length recs ≤ length (environ_bytes recs))%nat.
Proof.
  induction recs as [|kv recs IH]; [done|].
  rewrite <-(app_nil_r (environ_bytes (kv :: recs))), environ_bytes_cons.
  rewrite app_nil_r, length_app. simpl. rewrite length_app. simpl. lia.
Qed.

(** The loop takes the records of a well-formed stream one per turn. *)
Lemma env_loop_records fclose_res buflen recs n f c buf env :
  Forall (well_formed_record buflen) recs → c ≠ xff →
  buflen ≤ Z.of_nat (length buf) →
  ∃ c' buf',
    c' ≠ xff ∧ length buf' = length buf ∧
    env_loop (length recs + n) fclose_res buflen
      (EnvState (environ_bytes recs ++ f) c buf env 0)
    = env_loop n fclose_res buflen
        (EnvState f c' buf' (install recs env) 0).
Proof.
  intros Hrecs. revert c buf env.
  induction Hrecs as [|[k v] recs (Hne & Hk & Hv & Hfit) _ IH];
    intros c buf env Hc Hbuf.
  - by exists c, buf.
  - cbn [fst snd length Nat.add] in *. rewrite environ_bytes_cons.
    rewrite env_loop_unfold. cbn [fst snd es_c].
    rewrite char_is_EOF, bool_decide_eq_false_2 by done. cbn [negb].
    rewrite load_record_pair by done.
    set (buf1 := k ++ NUL :: v ++ NUL :: drop _ buf).
    assert (length buf1 = length buf) as Hlen.
    { unfold buf1. rewrite length_app. simpl.
      rewrite length_app. simpl. rewrite length_drop. lia. }
    destruct (IH NUL buf1 (<[k:=v]> env)) as (c' & buf' & ? & ? & ->);
      [done|lia|].
    exists c', buf'. split_and!; [done|congruence|done].
Qed.

Lemma load_environment_on_records fclose_res recs c0 buf buflen env :
  Forall (well_formed_record buflen) recs → c0 ≠ xff →
  buflen ≤ Z.of_nat (length buf) →
  ∃ s, load_environment_on fclose_res (environ_bytes recs) c0 buf buflen
         env 0 = Some (EINVAL, s)
       ∧ es_env s = install recs env ∧ es_file s = []
       ∧ length (es_buf s) = length buf.
Proof.
  intros Hrecs Hc Hbuf.
  destruct (env_loop_records fclose_res buflen recs 1 [] c0 buf env)
    as (c' & buf' & Hc' & Hlen & Hloop); [done..|].
  rewrite app_nil_r in Hloop.
  rewrite env_loop_unfold in Hloop. simpl in Hloop.
  rewrite char_is_EOF, bool_decide_eq_false_2 in Hloop by done.
  simpl in Hloop.
  assert (∃ c1 buf1, length buf1 = length buf' ∧
            load_record buflen (EnvState [] c' buf' (install recs env) 0)
            = Return EINVAL (EnvState [] c1 buf1 (install recs env) 0))
    as (c1 & buf1 & Hlen1 & Hturn).
  { unfold load_record. simpl.
    destruct (negb (0 <? buflen)); simpl; eexists _, _;
      (split; [|reflexivity]); by rewrite ?length_insert. }
  rewrite Hturn in Hloop.
  eexists. split.
  - unfold load_environment_on.
    eapply env_loop_mono; [exact Hloop|].
    pose proof (environ_bytes_length recs). lia.
  - simpl. split_and!; [done|done|congruence].
Qed.

(** ** A 0xFF byte in the stream *)

Lemma read_record_cut buflen post pre i c buf value :
  match read_record buflen pre i c buf value with
  | ForDone f1 c1 buf1 v1 =>
      ∃ f2, read_record buflen (pre ++ xff :: post) i c buf value
            = ForDone f2 c1 buf1 v1
          ∧ (f2 = f1 ++ xff :: post ∨ (f1 = [] ∧ f2 = post ∧ c1 = xff))
  | ForReturn code f1 c1 buf1 =>
      read_record buflen (pre ++ xff :: post) i c buf value
      = ForReturn code (f1 ++ xff :: post) c1 buf1
  end.
Proof.
  revert i c buf value.
  induction pre as [|b pre IH]; intros i c buf value.
  - destruct (decide (i < buflen)) as [Hi|Hi].
    + rewrite read_record_eof by done. simpl app.
      rewrite read_record_xff by done. eauto 7.
    + rewrite !read_record_stop by lia. eauto.
  - simpl.
    destruct (negb (i <? buflen)); [eauto|].
    destruct (char_to_int _ =? EOF); [eauto|].
    destruct (char_to_int _ =? 0); [eauto|].
    destruct (i =? buflen - 1); [done|].
    destruct value as [off|]; [apply IH|].
    destruct (char_to_int _ =? char_to_int equals_sign); apply IH.
Qed.

Lemma load_record_cut buflen post s1 s2 :
  cut_at post s1 s2 → es_file s2 = es_file s1 ++ xff :: post →
  match load_record buflen s1 with
  | Return code s1' =>
      ∃ s2', load_record buflen s2 = Return code s2' ∧ cut_at post s1' s2'
  | Again s1' =>
      ∃ s2', load_record buflen s2 = Again s2' ∧ cut_at post s1' s2'
  end.
Proof.
  intros (Hc & Hbuf & Henv & Herrno & _) Hfile.
  unfold load_record. rewrite Hc, Hbuf, Henv, Herrno, Hfile.
  pose proof (read_record_cut buflen post (es_file s1) 0 (es_c s1)
                (es_buf s1) None) as Hcut.
  destruct (read_record buflen (es_file s1) _ _ _ _)
    as [f1 c1 buf1 v1|code f1 c1 buf1].
  - destruct Hcut as (f2 & -> & Hf2).
    destruct (negb (es_errno s1 =? 0));
      [eexists; split; [done|]; by repeat split|].
    destruct v1 as [off|];
      [|eexists; split; [done|]; by repeat split].
    destruct (setenv _ _ _ _) as [[r env] errno].
    destruct (negb (r =? 0)); eexists; (split; [done|]); by repeat split.
  - rewrite Hcut. eexists; split; [done|]. repeat split; auto.
Qed.

Lemma env_loop_cut fuel fclose_res buflen post s1 s2 r s1' :
  cut_at post s1 s2 →
  env_loop fuel fclose_res buflen s1 = Some (r, s1') →
  ∃ s2', env_loop fuel fclose_res buflen s2 = Some (r, s2')
         ∧ cut_at post s1' s2'.
Proof.
  revert s1 s2.
  induction fuel as [|fuel IH]; intros s1 s2 Hcut H; [done|].
  rewrite env_loop_unfold in *.
  pose proof Hcut as (Hc & Hbuf & Henv & Herrno & Hfile).
  rewrite Hc, Herrno. rewrite char_is_EOF in *.
  case_bool_decide as HEOF; simpl in *.
  - destruct (negb (es_errno s1 =? 0)); injection H as <- <-; eauto.
  - destruct Hfile as [Hfile|(_ & _ & ?)]; [|done].
    pose proof (load_record_cut buflen post s1 s2 Hcut Hfile) as Hturn.
    destruct (load_record buflen s1) as [code t1|t1].
    + destruct Hturn as (t2 & -> & Hcut'). injection H as <- <-. eauto.
    + destruct Hturn as (t2 & -> & Hcut'). eauto.
Qed.

(** ** The line reader *)

Lemma lines_bytes_cons l ls f :
  lines_bytes (l :: ls) ++ f = l ++ newline :: (lines_bytes ls ++ f).
Proof.
  unfold lines_bytes. simpl. rewrite <-!app_assoc. by simpl.
Qed.

Lemma take_line_line room l f :
  newline ∉ l → Z.of_nat (length l) + 1 ≤ room →
  take_line room (l ++ newline :: f) = (l ++ [newline], f).
Proof.
  revert room. induction l as [|b l IH]; intros room Hl Hroom; simpl.
  - by rewrite (proj2 (Z.leb_gt room 0)) by (simpl in Hroom; lia).
  - apply not_elem_of_cons in Hl as [Hb Hl]. simpl in Hroom.
    rewrite (proj2 (Z.leb_gt room 0)) by lia.
    rewrite decide_False by done.
    by rewrite IH by (done || lia).
Qed.

Lemma fgets_line buf size l f :
  newline ∉ l → Z.of_nat (length l) + 2 ≤ size →
  fgets buf size (l ++ newline :: f)
  = (Some (list_inserts 0 ((l ++ [newline]) ++ [NUL]) buf), f).
Proof.
  intros Hl Hsize. unfold fgets.
  rewrite (proj2 (Z.leb_gt size 0)) by lia.
  differs.
  rewrite take_line_line by (done || lia).
  by destruct l.
Qed.

Lemma fgets_eof buf size : 2 ≤ size → fgets buf size [] = (None, []).
Proof.
  intros Hsize. unfold fgets.
  rewrite (proj2 (Z.leb_gt size 0)) by lia.
  by differs.
Qed.

Lemma store_in {A} (a : list A) (i : Z) (x : A) :
  0 ≤ i < Z.of_nat (length a) → store a i x = Some (<[Z.to_nat i := x]> a).
Proof.
  intros [H0 Hi]. unfold store.
  by rewrite (proj2 (Z.leb_le 0 i)), (proj2 (Z.ltb_lt i _)).
Qed.

(** The token made from a line that [fgets] has put in the buffer. *)
Lemma token_of_line l :
  newline ∉ l → NUL ∉ l → Z.of_nat (length l) < SIZE_MOD →
  let line := l ++ [newline] in
  strndup line ((strlen line - 1) mod SIZE_MOD) = l.
Proof.
  intros _ _ Hlen line. unfold strndup, strlen, line.
  rewrite length_app. simpl.
  rewrite Z.mod_small by lia.
  rewrite Z.min_l by lia.
  replace (Z.to_nat (Z.of_nat (length l + 1) - 1)) with (length l) by lia.
  by rewrite take_app_length.
Qed.

Lemma readlines_loop_eof k n buf buflen lines :
  2 ≤ buflen →
  readlines_loop k n [] buf buflen lines = Some (n, [], buf, lines).
Proof. intros Hlen. destruct k; [done|]. simpl. by rewrite fgets_eof. Qed.

(** The loop stores the lines of a well-formed file one per turn. *)
Lemma readlines_loop_lines buflen ls k n f buf lines :
  Forall (well_formed_line buflen) ls →
  buflen ≤ INT_MAX → buflen ≤ Z.of_nat (length buf) →
  0 ≤ n → n + Z.of_nat (length ls) ≤ Z.of_nat (length lines) →
  ∃ buf',
    length buf' = length buf ∧
    readlines_loop (length ls + k) n (lines_bytes ls ++ f) buf buflen lines
    = readlines_loop k (n + Z.of_nat (length ls)) f buf' buflen
        (list_inserts (Z.to_nat n) (Some <$> ls) lines).
Proof.
  intros Hls Hmax. revert n buf lines.
  induction Hls as [|l ls (Hnl & Hnul & Hfit) _ IH];
    intros n buf lines Hbuf Hn Hroom.
  - exists buf. split; [done|]. simpl. by rewrite Z.add_0_r.
  - cbn [length Nat.add] in *. rewrite lines_bytes_cons.
    cbn [readlines_loop]. rewrite fgets_line by done.
    set (buf1 := list_inserts 0 _ buf).
    assert (cstring buf1 = l ++ [newline]) as ->.
    { unfold buf1. rewrite list_inserts_0_app
        by (rewrite !length_app; simpl; lia).
      rewrite <-app_assoc. simpl.
      apply cstring_app_NUL.
      rewrite not_elem_of_app, not_elem_of_cons. split_and!; try done.
      apply not_elem_of_nil. }
    rewrite token_of_line by (done || unfold INT_MAX, SIZE_MOD in *; lia).
    rewrite store_in by lia.
    destruct (IH (n + 1) buf1 (<[Z.to_nat n := Some l]> lines))
      as (buf' & Hlen & ->).
    { unfold buf1. by rewrite length_inserts. }
    { lia. }
    { rewrite length_insert. lia. }
    exists buf'. split; [by rewrite Hlen; apply length_inserts|].
    f_equal; [lia|]. cbn [fmap list_fmap list_inserts].
    replace (Z.to_nat (n + 1)) with (S (Z.to_nat n)) by lia.
    by rewrite list_insert_inserts_lt by lia.
Qed.

Lemma readlines_lines os path buf buflen lines maxlines errno ls :
  fopen os path = Some (lines_bytes ls) → sys_fclose os = 0 →
  Forall (well_formed_line buflen) ls →
  2 ≤ buflen ≤ INT_MAX → buflen ≤ Z.of_nat (length buf) →
  Z.of_nat (length ls) < maxlines →
  (length ls < length lines)%nat →
  ∃ buf',
    length buf' = length buf ∧
    readlines os path buf buflen lines maxlines errno
    = RlReturn (Z.of_nat (length ls))
        ((Some <$> ls) ++ None :: drop (S (length ls)) lines) buf' 0.
Proof.
  intros Hopen Hclose Hls [Hmin Hmax] Hbuf Hn Hroom.
  unfold readlines. rewrite Hopen, Hclose.
  destruct (readlines_loop_lines buflen ls
              (Z.to_nat (maxlines - 1) - length ls) 0 [] buf lines)
    as (buf' & Hlen & Hloop); [done|done|done|done|lia|].
  replace (length ls + (Z.to_nat (maxlines - 1) - length ls))%nat
    with (Z.to_nat (maxlines - 1)) in Hloop by lia.
  rewrite app_nil_r in Hloop. rewrite Hloop.
  rewrite readlines_loop_eof by done. simpl.
  rewrite store_in by (rewrite length_inserts; lia).
  exists buf'. split; [done|]. f_equal.
  rewrite list_inserts_0_app by (rewrite length_fmap; lia).
  replace (Z.to_nat (0 + Z.of_nat (length ls)))
    with (length (Some <$> ls)) by (rewrite length_fmap; lia).
  rewrite insert_at_app, length_fmap.
  by rewrite insert_0_drop by lia.
Qed.

Lemma argv_list_tokens (ls : list cstr) rest :
  argv_list ((Some <$> ls) ++ None :: rest) = ls.
Proof. induction ls as [|l ls IH]; [done|]. simpl. f_equal. apply IH. Qed.

(** ** The process name *)

Lemma strncpy_from_in k i dest src :
  (i + k ≤ length dest)%nat →
  strncpy_from k (Z.of_nat i) dest src
  = Some (list_inserts i (padded src <$> seq i k) dest).
Proof.
  revert i dest. induction k as [|k IH]; intros i dest Hlen; [done|].
  cbn [strncpy_from seq fmap list_fmap list_inserts].
  rewrite store_in by lia. rewrite Nat2Z.id.
  replace (Z.of_nat i + 1) with (Z.of_nat (S i)) by lia.
  rewrite IH by (rewrite length_insert; lia).
  by rewrite list_insert_inserts_lt by lia.
Qed.

Lemma cstring_padded src i n rest :
  NUL ∉ src →
  cstring ((padded src <$> seq i n) ++ NUL :: rest) = take n (drop i src).
Proof.
  intros Hsrc. revert i. induction n as [|n IH]; intros i; [done|].
  cbn [seq fmap list_fmap app cstring].
  destruct (src !! i) as [b|] eqn:E.
  - replace (padded src i) with b by (unfold padded; by rewrite E).
    rewrite decide_False
      by (intros ->; by apply Hsrc, list_elem_of_lookup; exists i).
    rewrite (drop_S _ _ _ E). simpl. f_equal. apply IH.
  - replace (padded src i) with NUL by (unfold padded; by rewrite E).
    apply lookup_ge_None in E. by rewrite drop_ge.
Qed.

Lemma prepare_pname_spec pname cid :
  length pname = 16%nat →
  prepare_pname pname cid = Some ((padded cid <$> seq 0 15) ++ [NUL]).
Proof.
  intros Hlen. unfold prepare_pname, strncpy, PNAME_SIZE.
  rewrite (strncpy_from_in 16 0) by lia.
  rewrite <-(app_nil_r (padded cid <$> seq 0 16)).
  rewrite list_inserts_0_l by (rewrite length_fmap, length_seq; lia).
  rewrite store_in by (rewrite length_fmap, length_seq; lia).
  reflexivity.
Qed.

(** ** The rendezvous writer *)

Lemma writefifo_written os fifo msg :
  sys_open os fifo ≠ -1 →
  sys_write os (sys_open os fifo) msg (strlen msg) ≠ -1 →
  writefifo os fifo msg
  = (sys_close os (sys_open os fifo),
     take (Z.to_nat (sys_write os (sys_open os fifo) msg (strlen msg))) msg).
Proof.
  intros Hopen Hwrite. unfold writefifo.
  rewrite (proj2 (Z.eqb_neq _ _) Hopen).
  by rewrite (proj2 (Z.eqb_neq _ _) Hwrite).
Qed.

(** ** Streams with a bad record *)

Lemma environ_bytes_app_length recs f :
  (length recs ≤ length (environ_bytes recs ++ f))%nat.
Proof. pose proof (environ_bytes_length recs). rewrite length_app. lia. Qed.

(** After well-formed records, a record with no '=': the pairs before it
    are installed and the status is [EINVAL]. *)
Lemma load_environment_on_invalid fclose_res recs k f c0 buf buflen env :
  Forall (well_formed_record buflen) recs → c0 ≠ xff →
  buflen ≤ Z.of_nat (length buf) →
  Forall key_byte k → Z.of_nat (length k) < buflen →
  ∃ s, load_environment_on fclose_res (environ_bytes recs ++ k ++ NUL :: f)
         c0 buf buflen env 0 = Some (EINVAL, s)
       ∧ es_env s = install recs env.
Proof.
  intros Hrecs Hc Hbuf Hk Hfit.
  destruct (env_loop_records fclose_res buflen recs 1 (k ++ NUL :: f)
              c0 buf env) as (c' & buf' & Hc' & Hlen & Hloop); [done..|].
  rewrite env_loop_unfold in Hloop. cbn [es_c] in Hloop.
  rewrite char_is_EOF, bool_decide_eq_false_2 in Hloop by done.
  cbn [negb] in Hloop. rewrite load_record_no_equals in Hloop by done.
  eexists. split.
  - unfold load_environment_on.
    eapply env_loop_mono; [exact Hloop|].
    pose proof (environ_bytes_app_length recs (k ++ NUL :: f)). lia.
  - reflexivity.
Qed.

(** After well-formed records, a record that fills the buffer before any
    '=' or NUL: the pairs before it are installed and the status is
    [E2BIG]. *)
Lemma load_environment_on_too_big fclose_res recs data b f c0 buf buflen env :
  Forall (well_formed_record buflen) recs → c0 ≠ xff →
  buflen ≤ Z.of_nat (length buf) →
  Forall key_byte data → value_byte b →
  Z.of_nat (length data) = buflen - 1 →
  ∃ s, load_environment_on fclose_res (environ_bytes recs ++ data ++ b :: f)
         c0 buf buflen env 0 = Some (E2BIG, s)
       ∧ es_env s = install recs env.
Proof.
  intros Hrecs Hc Hbuf Hdata Hb Hlen.
  destruct (env_loop_records fclose_res buflen recs 1 (data ++ b :: f)
              c0 buf env) as (c' & buf' & Hc' & _ & Hloop); [done..|].
  rewrite env_loop_unfold in Hloop. cbn [es_c] in Hloop.
  rewrite char_is_EOF, bool_decide_eq_false_2 in Hloop by done.
  cbn [negb] in Hloop. rewrite load_record_too_big in Hloop by done.
  eexists. split.
  - unfold load_environment_on.
    eapply env_loop_mono; [exact Hloop|].
    pose proof (environ_bytes_app_length recs (data ++ b :: f)). lia.
  - reflexivity.
Qed.

(** ** [main] *)

(** [main] goes on to the rendezvous and to [execvp] whenever the two
    loaders return anything but -1. *)
Lemma main_goes_on w prog cid pname n args buf errno r s :
  w_argv w = [prog; cid] →
  prepare_pname (stack_pname w) cid = Some pname →
  readlines (w_sys w) cmdline_path (stack_buf w) BUF_SIZE (stack_args w)
    sizeof_args (w_errno w) = RlReturn n args buf errno →
  n ≠ -1 →
  load_environment (w_sys w) environ_path (stack_c w) buf BUF_SIZE (w_env w)
    errno = Some (r, s) →
  r ≠ -1 →
  main w = notify_and_exec (w_sys w) pname cid args (es_env s).
Proof.
  intros Hargv Hpname Hlines Hn Henv Hr. unfold main.
  rewrite Hargv. cbn [length Z.of_nat negb Z.eqb Pos.of_succ_nat Pos.succ
                      Pos.eqb lookup list_lookup default from_option id].
  simpl. rewrite Hpname, Hlines.
  differs.
  rewrite Henv.
  by differs.
Qed.

(** [main] on staged files: a command line of well-formed lines, and an
    environment that [load_environment] answers with a status other than
    -1 whatever the buffer holds. *)
Lemma main_staged w os prog cid ls r env :
  stack_ok w → w_sys w = os → w_argv w = [prog; cid] →
  fopen os cmdline_path = Some (lines_bytes ls) → sys_fclose os = 0 →
  Forall (well_formed_line BUF_SIZE) ls →
  Z.of_nat (length ls) < ARGS_LEN →
  (∀ buf, Z.of_nat (length buf) = BUF_SIZE →
     ∃ s, load_environment os environ_path (stack_c w) buf BUF_SIZE
            (w_env w) 0 = Some (r, s) ∧ es_env s = env) →
  r ≠ -1 →
  main w
  = notify_and_exec os ((padded cid <$> seq 0 15) ++ [NUL]) cid
      ((Some <$> ls) ++ None :: drop (S (length ls)) (stack_args w)) env.
Proof.
  intros (Hbuf & Hargs & Hpname) Hos Hargv Hopen Hclose Hls Hn Henv Hr.
  subst os.
  destruct (readlines_lines (w_sys w) cmdline_path (stack_buf w) BUF_SIZE
              (stack_args w) sizeof_args (w_errno w) ls)
    as (buf' & Hlen & Hlines); try done.
  { lia. }
  { unfold sizeof_args, ARGS_LEN, sizeof_pointer in *. lia. }
  { unfold ARGS_LEN in *. lia. }
  destruct (Henv buf') as (s & Hs & <-); [lia|].
  eapply main_goes_on; [done| |exact Hlines|lia|exact Hs|done].
  apply prepare_pname_spec. unfold PNAME_SIZE in *. lia.
Qed.

(** The model of [main] never stops for lack of fuel. *)
Lemma main_finishes w : (main w).2 ≠ Unfinished.
Proof.
  unfold main.
  destruct (negb _); [done|].
  destruct (prepare_pname _ _); [|done].
  destruct (readlines _ _ _ _ _ _ _) as [r args buf errno|]; [|done].
  destruct (r =? -1); [done|].
  destruct (load_environment_total (w_sys w) environ_path (stack_c w) buf
              BUF_SIZE (w_env w) errno) as [[r' s] ->].
  destruct (r' =? -1); [done|].
  unfold notify_and_exec.
  destruct (writefifo _ _ _) as [r'' sent].
  destruct (r'' =? -1); [done|].
  destruct args as [|[file|] args]; [done| |done].
  by destruct (sys_execvp _ _ _ _).
Qed.

(** ** Staged runs *)

Lemma staged_world_ok cmdline environ exec :
  stack_ok (staged_world cmdline environ exec).
Proof.
  unfold stack_ok, staged_world. cbn [stack_buf stack_args stack_pname].
  rewrite !length_replicate.
  split_and!; apply Z2Nat.id; by vm_compute.
Qed.

Lemma fopen_cmdline cmdline environ exec :
  fopen (quiet_sys cmdline environ exec) cmdline_path = Some cmdline.
Proof. apply lookup_insert_eq. Qed.

Lemma fopen_environ cmdline environ exec :
  fopen (quiet_sys cmdline environ exec) environ_path = Some environ.
Proof.
  unfold fopen, quiet_sys. cbn [sys_files].
  rewrite lookup_insert_ne by (by vm_compute).
  apply lookup_insert_eq.
Qed.

Lemma echo_hello_well_formed : Forall (well_formed_line BUF_SIZE) echo_hello.
Proof. decide_closed. Qed.

Lemma foo_bar_well_formed : Forall (well_formed_record BUF_SIZE) foo_bar.
Proof. decide_closed. Qed.

(** Status 0 comes from nowhere but the end of [main], behind an [execvp]
    that returned. *)
Lemma exit_zero_after_exec_returned w tr :
  main w = (tr, Exited 0) → ∃ e, last tr = Some (ExecReturned e).
Proof.
  unfold main.
  destruct (negb _); [done|].
  destruct (prepare_pname _ _); [|done].
  destruct (readlines _ _ _ _ _ _ _) as [r args buf errno|]; [|done].
  destruct (r =? -1); [done|].
  destruct (load_environment _ _ _ _ _ _ _) as [[r' s]|]; [|done].
  destruct (r' =? -1); [done|].
  unfold notify_and_exec.
  destruct (writefifo _ _ _) as [r'' sent].
  destruct (r'' =? -1); [done|].
  destruct args as [|[file|] args]; [done| |done].
  destruct (sys_execvp _ _ _ _) as [e|]; [|done].
  intros [= <-]. exists e. by rewrite last_snoc.
Qed.

(** The run of the specification's example: [/bin/echo hello] is started
    with [FOO=bar] in its environment, after the identifier went into the
    pipe. *)
Lemma end_to_end :
  main (staged_world (lines_bytes echo_hello) (environ_bytes foo_bar) None)
  = ([SetName (bytes_of "c1"); FifoWrite (bytes_of "c1")],
     Replaced (bytes_of "/bin/echo") echo_hello
       (<[bytes_of "FOO" := bytes_of "bar"]> ∅)).
Proof.
  rewrite (main_staged _ (quiet_sys _ _ _) _ _ echo_hello EINVAL
             (install foo_bar ∅)
             (staged_world_ok _ _ _) eq_refl eq_refl
             (fopen_cmdline _ _ _) eq_refl echo_hello_well_formed).
  - reflexivity.
  - by vm_compute.
  - intros buf Hbuf. unfold load_environment. rewrite fopen_environ.
    destruct (load_environment_on_records 0 foo_bar NUL buf BUF_SIZE ∅)
      as (s & Hs & Henv & _); [apply foo_bar_well_formed|done|lia|].
    by exists s.
  - done.
Qed.

(** A record that fills the buffer does not stop the process either: the
    status [E2BIG] is not -1. *)
Lemma capacity_record_not_fatal data b f :
  Forall key_byte data → value_byte b →
  Z.of_nat (length data) = BUF_SIZE - 1 →
  main (staged_world (lines_bytes echo_hello)
          (environ_bytes foo_bar ++ data ++ b :: f) None)
  = ([SetName (bytes_of "c1"); FifoWrite (bytes_of "c1")],
     Replaced (bytes_of "/bin/echo") echo_hello
       (<[bytes_of "FOO" := bytes_of "bar"]> ∅)).
Proof.
  intros Hdata Hb Hlen.
  rewrite (main_staged _ (quiet_sys _ _ _) _ _ echo_hello E2BIG
             (install foo_bar ∅)
             (staged_world_ok _ _ _) eq_refl eq_refl
             (fopen_cmdline _ _ _) eq_refl echo_hello_well_formed).
  - reflexivity.
  - by vm_compute.
  - intros buf Hbuf. unfold load_environment. rewrite fopen_environ.
    apply load_environment_on_too_big;
      [apply foo_bar_well_formed|done|lia|done..].
  - done.
Qed.

(** ** Runs of [load_environment] on small streams *)

(** When the uninitialised [c] holds 0xFF the loop is not entered. *)
Lemma load_environment_on_skipped fclose_res f buf buflen env :
  load_environment_on fclose_res f xff buf buflen env 0
  = Some (fclose_res, EnvState f xff buf env 0).
Proof. reflexivity. Qed.

(** A last record without its NUL is installed, and this is the way to the
    status of [fclose]. *)
Lemma unterminated_last_record :
  ∃ s, load_environment_on 0 (bytes_of "A=b") NUL (replicate 16 NUL) 16 ∅ 0
       = Some (0, s)
       ∧ es_env s !! bytes_of "A" = Some (bytes_of "b").
Proof. eexists. split; by vm_compute. Qed.

(** A byte 0xFF inside a value: the value ends there and the rest of the
    file, a whole record included, is not read. *)
Lemma xff_in_value :
  ∃ s, load_environment_on 0
         (bytes_of "A=b" ++ xff :: bytes_of "c" ++ NUL :: bytes_of "D=e"
            ++ [NUL])
         NUL (replicate 16 NUL) 16 ∅ 0
       = Some (0, s)
       ∧ es_env s !! bytes_of "A" = Some (bytes_of "b")
       ∧ es_env s !! bytes_of "D" = None
       ∧ es_file s = bytes_of "c" ++ NUL :: bytes_of "D=e" ++ [NUL].
Proof. eexists. split_and!; by vm_compute. Qed.

(** ** Whole streams *)

(** A stream of records [k1=v1], NUL, [k2=v2], NUL, ... whose keys and
    values are free of the byte 0xFF and which fit the buffer:
    [load_environment] installs exactly the pairs.  The environment
    afterwards is the one before with each pair set in turn, so a key has
    the value of its last record, and a key of no record keeps what it
    had. *)
Theorem well_formed_stream_installed os path c0 buf buflen env recs :
  fopen os path = Some (environ_bytes recs) →
  Forall (well_formed_record buflen) recs →
  c0 ≠ xff → buflen ≤ Z.of_nat (length buf) →
  ∃ r s, load_environment os path c0 buf buflen env 0 = Some (r, s)
         ∧ es_env s = install recs env
         ∧ ∀ key, es_env s !! key
                  = match last_value key recs with
                    | Some v => Some v
                    | None => env !! key
                    end.
Proof.
  intros Hopen Hrecs Hc Hbuf. unfold load_environment. rewrite Hopen.
  destruct (load_environment_on_records (sys_fclose os) recs c0 buf buflen
              env Hrecs Hc Hbuf) as (s & Hs & Henv & _).
  exists EINVAL, s. split_and!; [done|done|].
  intros key. rewrite Henv. apply install_lookup.
Qed.

Lemma well_formed_stream_installed_witness :
  ∃ r s, load_environment (quiet_sys [] (environ_bytes a_b_a) None)
           environ_path NUL (replicate 16 NUL) 16 ∅ 0 = Some (r, s)
         ∧ es_env s = install a_b_a ∅
         ∧ ∀ key, es_env s !! key
                  = match last_value key a_b_a with
                    | Some v => Some v
                    | None => (∅ : Env) !! key
                    end.
Proof.
  apply well_formed_stream_installed.
  - apply fopen_environ.
  - decide_closed.
  - discriminate.
  - by vm_compute.
Defined.

(** Any stream that holds a byte 0xFF, read from any state:
    [load_environment] returns the status, the environment and the buffer
    it returns on the stream cut before the byte, and what follows the byte
    is never read: the unread part is all of it, or more when the run ended
    before it came to the byte. *)
Theorem xff_byte_ends_parsing fclose_res pre post c0 buf buflen env errno :
  ∃ r s1 s2,
    load_environment_on fclose_res pre c0 buf buflen env errno
    = Some (r, s1)
    ∧ load_environment_on fclose_res (pre ++ xff :: post) c0 buf buflen env
        errno = Some (r, s2)
    ∧ es_env s2 = es_env s1 ∧ es_buf s2 = es_buf s1
    ∧ (es_file s2 = post ∨ es_file s2 = es_file s1 ++ xff :: post).
Proof.
  destruct (load_environment_on_total fclose_res pre c0 buf buflen env errno)
    as [[r s1] H1].
  destruct (env_loop_cut (S (S (length pre))) fclose_res buflen post
              (EnvState pre c0 buf env errno)
              (EnvState (pre ++ xff :: post) c0 buf env errno) r s1)
    as (s2 & H2 & (_ & Hbuf & Henv & _ & Hfile)).
  { repeat split. by left. }
  { exact H1. }
  exists r, s1, s2. split_and!; try done.
  - unfold load_environment_on.
    eapply env_loop_mono; [exact H2|]. rewrite length_app. simpl. lia.
  - destruct Hfile as [?|(_ & ? & _)]; auto.
Qed.

(** * The claims *)

(** C1.  The claim: an invalid record (no '=') or a record that fills the
    buffer makes the whole process exit with a non-zero status, and no
    partly installed environment is accepted.  The code: [main] exits only
    on the status -1, and [load_environment] reports these two conditions as
    [EINVAL] and [E2BIG].  With [cmdline.txt] holding [/bin/echo] and
    [hello] and [environ] holding [FOO=bar], NUL, [BROKEN], NUL, the
    process prints nothing, signals the rendezvous and replaces itself by
    [/bin/echo hello] under the environment [FOO=bar]. *)
Theorem invalid_record_not_fatal :
  main (staged_world (lines_bytes echo_hello)
          (environ_bytes foo_bar ++ bytes_of "BROKEN" ++ [NUL]) None)
  = ([SetName (bytes_of "c1"); FifoWrite (bytes_of "c1")],
     Replaced (bytes_of "/bin/echo") echo_hello
       (<[bytes_of "FOO" := bytes_of "bar"]> ∅)).
Proof.
  rewrite (main_staged _ (quiet_sys _ _ _) _ _ echo_hello EINVAL (install foo_bar ∅)
             (staged_world_ok _ _ _) eq_refl eq_refl
             (fopen_cmdline _ _ _) eq_refl echo_hello_well_formed).
  - reflexivity.
  - by vm_compute.
  - intros buf Hbuf. unfold load_environment. rewrite fopen_environ.
    apply load_environment_on_invalid;
      [apply foo_bar_well_formed|done|cbn [sys_fclose quiet_sys]; lia| |].
    + decide_closed.
    + by vm_compute.
  - done.
Qed.

(** C2.  The claim: the exit status is 0 only through a successful
    [execvp], and a failed [execvp] is reported and ends in a non-zero
    status.  The code: nothing follows the call of [execvp], so when it
    returns [main] falls off its end.  With well-formed staged files and an
    [execvp] that fails with [ENOENT], the process prints nothing and its
    exit status is 0. *)
Theorem failed_exec_exits_zero :
  main (staged_world (lines_bytes echo_hello) (environ_bytes foo_bar)
          (Some ENOENT))
  = ([SetName (bytes_of "c1"); FifoWrite (bytes_of "c1"); ExecReturned ENOENT],
     Exited 0).
Proof.
  rewrite (main_staged _ (quiet_sys _ _ _) _ _ echo_hello EINVAL (install foo_bar ∅)
             (staged_world_ok _ _ _) eq_refl eq_refl
             (fopen_cmdline _ _ _) eq_refl echo_hello_well_formed).
  - reflexivity.
  - by vm_compute.
  - intros buf Hbuf. unfold load_environment. rewrite fopen_environ.
    destruct (load_environment_on_records 0 foo_bar NUL buf BUF_SIZE ∅)
      as (s & Hs & Henv & _); [apply foo_bar_well_formed|done|lia|].
    by exists s.
  - done.
Qed.

(** C3.  The claim: an empty [cmdline.txt] is a fatal configuration error,
    the process exits with a non-zero status and does not go on to
    [execvp].  The code: [readlines] returns 0 and [main] tests only for
    -1, so the process signals the rendezvous and calls [execvp] with
    [args[0] = NULL]. *)
Theorem empty_cmdline_not_fatal :
  main (staged_world [] (environ_bytes foo_bar) None)
  = ([SetName (bytes_of "c1"); FifoWrite (bytes_of "c1")],
     Undefined ExecvpNullFile).
Proof.
  rewrite (main_staged _ (quiet_sys _ _ _) _ _ [] EINVAL (install foo_bar ∅)
             (staged_world_ok _ _ _) eq_refl eq_refl
             (fopen_cmdline _ _ _) eq_refl (Forall_nil_2 _)).
  - reflexivity.
  - by vm_compute.
  - intros buf Hbuf. unfold load_environment. rewrite fopen_environ.
    destruct (load_environment_on_records 0 foo_bar NUL buf BUF_SIZE ∅)
      as (s & Hs & Henv & _); [apply foo_bar_well_formed|done|lia|].
    by exists s.
  - done.
Qed.

(** C4.  The claim: on an empty environment file [load_environment]
    reports success and installs nothing.  The code: the first turn of the
    loop meets the end of the file with [value] still [NULL] and returns
    [EINVAL]; nothing is installed.  (Only when the uninitialised [c]
    happens to be 0xFF is the loop skipped and the status of [fclose]
    returned.) *)
Theorem empty_environment_reports_EINVAL os path c0 buf buflen env :
  fopen os path = Some [] → c0 ≠ xff →
  ∃ s, load_environment os path c0 buf buflen env 0 = Some (EINVAL, s)
       ∧ es_env s = env.
Proof.
  intros Hopen Hc. unfold load_environment, load_environment_on.
  rewrite Hopen. simpl length. rewrite env_loop_unfold. cbn [es_c].
  rewrite char_is_EOF, bool_decide_eq_false_2 by done. cbn [negb].
  destruct (load_record_at_eof buflen c0 buf env) as (c' & buf' & ->).
  by eexists.
Qed.

Lemma empty_environment_reports_EINVAL_witness :
  ∃ s, load_environment (quiet_sys [] [] None) environ_path NUL
         (replicate 16 NUL) 16 ∅ 0 = Some (EINVAL, s)
       ∧ es_env s = ∅.
Proof.
  apply empty_environment_reports_EINVAL;
    [apply fopen_environ | discriminate].
Defined.

(** C5.  The claim: for every stream of records [k1=v1], NUL, [k2=v2],
    NUL, ..., each with its NUL and a '=', [load_environment] installs
    exactly the pairs.  The code: a byte of the file is stored in the
    [char c] and [c] is compared with [EOF] (lines 91-92), so a byte 0xFF
    in a record is taken for the end of the file.  On the one record [A],
    '=', [b], 0xFF, [c], NUL, read with [errno] at 0 into a buffer of 16
    bytes, [load_environment] sets [A] to [b] and not to [b], 0xFF, [c],
    leaves [c] and the NUL unread and returns the status of [fclose]. *)
Theorem xff_in_value_cuts_record :
  ∃ s, load_environment
         (quiet_sys [] (bytes_of "A=b" ++ xff :: bytes_of "c" ++ [NUL]) None)
         environ_path NUL (replicate 16 NUL) 16 ∅ 0
       = Some (0, s)
       ∧ es_env s = <[bytes_of "A" := bytes_of "b"]> ∅
       ∧ es_env s
         ≠ install [(bytes_of "A", bytes_of "b" ++ xff :: bytes_of "c")] ∅
       ∧ es_file s = bytes_of "c" ++ [NUL].
Proof.
  eexists. split_and!.
  - by vm_compute.
  - by vm_compute.
  - intros Heq.
    apply (f_equal (λ env : Env, env !! bytes_of "A")) in Heq.
    by vm_compute in Heq.
  - by vm_compute.
Qed.



(** C7.  For a file of N well-formed newline-terminated lines, N below
    [maxlines] and below the length of the array, [readlines] returns N
    with the k-th cell of the array holding the k-th line without its
    newline and a NULL behind the last token. *)
Theorem readlines_tokens os path buf buflen lines maxlines errno ls :
  fopen os path = Some (lines_bytes ls) → sys_fclose os = 0 →
  Forall (well_formed_line buflen) ls →
  2 ≤ buflen ≤ INT_MAX → buflen ≤ Z.of_nat (length buf) →
  Z.of_nat (length ls) < maxlines →
  (length ls < length lines)%nat →
  ∃ lines' buf',
    readlines os path buf buflen lines maxlines errno
    = RlReturn (Z.of_nat (length ls)) lines' buf' 0
    ∧ take (length ls) lines' = Some <$> ls
    ∧ lines' !! length ls = Some None
    ∧ argv_list lines' = ls.
Proof.
  intros Hopen Hclose Hls Hlen Hbuf Hn Hroom.
  destruct (readlines_lines os path buf buflen lines maxlines errno ls)
    as (buf' & _ & ->); try done.
  eexists _, buf'. split_and!; [done| | |].
  - rewrite take_app_length'; [done|by rewrite length_fmap].
  - rewrite lookup_app_r by (by rewrite length_fmap).
    by rewrite length_fmap, Nat.sub_diag.
  - apply argv_list_tokens.
Qed.

Lemma readlines_tokens_witness :
  ∃ lines' buf',
    readlines (quiet_sys (lines_bytes echo_hello) [] None) cmdline_path
      (replicate 16 NUL) 16 (replicate 4 None) 4 0
    = RlReturn (Z.of_nat (length echo_hello)) lines' buf' 0
    ∧ take (length echo_hello) lines' = Some <$> echo_hello
    ∧ lines' !! length echo_hello = Some None
    ∧ argv_list lines' = echo_hello.
Proof.
  apply readlines_tokens.
  - apply fopen_cmdline.
  - reflexivity.
  - decide_closed.
  - by vm_compute.
  - by vm_compute.
  - by vm_compute.
  - vm_compute. lia.
Defined.

(** C8.  Whatever the length of the identifier, the stores that prepare
    the process name stay inside the 16 bytes of [pname], which afterwards
    holds the first 15 bytes of the identifier (all of it when it is
    shorter) and a NUL in its last byte. *)
Theorem pname_truncated pname cid :
  Z.of_nat (length pname) = PNAME_SIZE → NUL ∉ cid →
  ∃ p, prepare_pname pname cid = Some p
       ∧ Z.of_nat (length p) = PNAME_SIZE
       ∧ cstring p = take 15 cid
       ∧ p !! 15%nat = Some NUL.
Proof.
  intros Hlen Hcid. unfold PNAME_SIZE in *.
  rewrite prepare_pname_spec by lia.
  eexists. split_and!; [done|done| |done].
  by rewrite cstring_padded.
Qed.

Lemma pname_truncated_witness :
  ∃ p, prepare_pname (replicate 16 xff)
         (bytes_of "0123456789abcdef0123456789abcdef") = Some p
       ∧ Z.of_nat (length p) = PNAME_SIZE
       ∧ cstring p = take 15 (bytes_of "0123456789abcdef0123456789abcdef")
       ∧ p !! 15%nat = Some NUL.
Proof.
  apply pname_truncated.
  - reflexivity.
  - decide_closed.
Defined.

(** C10.  When [open] and [close] succeed, [writefifo] returns 0 whenever
    [write] returns anything but -1, whatever the number of bytes taken:
    after a short write the reader has a proper prefix of the identifier
    and no failure is reported. *)
Theorem short_write_reported_as_success os fifo msg w :
  sys_open os fifo ≠ -1 →
  sys_write os (sys_open os fifo) msg (strlen msg) = w → w ≠ -1 →
  sys_close os (sys_open os fifo) = 0 →
  writefifo os fifo msg = (0, take (Z.to_nat w) msg)
  ∧ (0 ≤ w < strlen msg → take (Z.to_nat w) msg ≠ msg).
Proof.
  intros Hopen Hwrite Hw Hclose. split.
  - rewrite writefifo_written by congruence.
    by rewrite Hwrite, Hclose.
  - intros Hshort Heq. apply (f_equal length) in Heq.
    rewrite length_take in Heq. unfold strlen in Hshort. lia.
Qed.

Lemma short_write_reported_as_success_witness :
  writefifo one_byte_sys syncfifo (bytes_of "c1") = (0, take 1 (bytes_of "c1"))
  ∧ (0 ≤ 1 < strlen (bytes_of "c1")
     → take 1 (bytes_of "c1") ≠ bytes_of "c1").
Proof.
  apply (short_write_reported_as_success one_byte_sys syncfifo
           (bytes_of "c1") 1).
  - discriminate.
  - reflexivity.
  - discriminate.
  - reflexivity.
Defined.

(** * Further properties *)

(** ** More streams for [load_environment] *)

(** Bytes of a record are copied up to the last cell but one of the buffer,
    with or without a '=' among them. *)
Lemma read_record_long buflen data f i c buf value :
  Forall value_byte data → 0 ≤ i →
  i + Z.of_nat (length data) < buflen →
  ∃ buf' value',
    read_record buflen (data ++ f) i c buf value
    = read_record buflen f (i + Z.of_nat (length data)) c buf' value'.
Proof.
  intros Hdata. revert i c buf value.
  induction Hdata as [|b data Hb Hdata IH]; intros i c buf value Hi Hlen;
    cbn [length app] in *.
  - exists buf, value. by rewrite Z.add_0_r.
  - assert (∃ buf1 value1,
              read_record buflen (b :: data ++ f) i c buf value
              = read_record buflen (data ++ f) (i + 1) b buf1 value1)
      as (buf1 & value1 & ->).
    { destruct value as [off|].
      - eexists _, _. by apply read_record_plain; [|lia].
      - destruct (decide (b = equals_sign)) as [->|Hne].
        + eexists _, _. apply read_record_equals. lia.
        + eexists _, _. by apply read_record_plain; [|lia]. }
    destruct (IH (i + 1) b buf1 value1) as (buf' & value' & ->); [lia..|].
    exists buf', value'.
    rewrite (read_record_c _ _ _ b c) by lia. f_equal. lia.
Qed.

(** The buffer after a pair was read, whatever ended the record. *)
Lemma pair_in_buffer (k v buf : list byte) :
  (length k + length v + 2 ≤ length buf)%nat →
  <[Z.to_nat (0 + Z.of_nat (length k) + 1 + Z.of_nat (length v)) := NUL]>
    (list_inserts (Z.to_nat (0 + Z.of_nat (length k) + 1)) v
       (<[Z.to_nat (0 + Z.of_nat (length k)) := NUL]>
          (list_inserts (Z.to_nat 0) k buf)))
  = k ++ NUL :: v ++ NUL :: drop (length k + length v + 2) buf.
Proof.
  intros Hlen.
  rewrite list_inserts_0_app by lia.
  replace (Z.to_nat (0 + Z.of_nat (length k))) with (length k) by lia.
  rewrite insert_at_app, insert_0_drop by lia.
  set (k0 := k ++ [NUL]).
  replace (k ++ NUL :: drop (S (length k)) buf)
    with (k0 ++ drop (S (length k)) buf)
    by (unfold k0; by rewrite <-app_assoc).
  replace (Z.to_nat (0 + Z.of_nat (length k) + 1)) with (length k0)
    by (unfold k0; rewrite length_app; simpl; lia).
  rewrite inserts_at_app by (rewrite length_drop; lia).
  rewrite drop_drop, app_assoc.
  replace (Z.to_nat (0 + Z.of_nat (length k) + 1 + Z.of_nat (length v)))
    with (length (k0 ++ v))
    by (unfold k0; rewrite !length_app; simpl; lia).
  rewrite insert_at_app, insert_0_drop by lia.
  unfold k0. rewrite <-!app_assoc. simpl.
  by replace (S (S (length k + length v))) with (length k + length v + 2)%nat
    by lia.
Qed.

(** A pair that the end of the file cuts off before its NUL. *)
Lemma read_record_pair_eof buflen k v c buf :
  Forall key_byte k → Forall value_byte v →
  Z.of_nat (length k) + Z.of_nat (length v) + 2 ≤ buflen →
  buflen ≤ Z.of_nat (length buf) →
  read_record buflen (k ++ equals_sign :: v) 0 c buf None
  = ForDone [] xff
      (k ++ NUL :: v ++ NUL :: drop (length k + length v + 2) buf)
      (Some (Z.of_nat (length k) + 1)).
Proof.
  intros Hk Hv Hfit Hbuf.
  rewrite read_record_prefix by (done || lia).
  rewrite read_record_equals by lia.
  rewrite <-(app_nil_r v) at 1.
  rewrite read_record_prefix by (done || lia).
  rewrite read_record_eof by lia.
  by rewrite pair_in_buffer by lia.
Qed.

Lemma load_record_pair_eof buflen k v c buf env :
  k ≠ [] → Forall key_byte k → Forall value_byte v →
  Z.of_nat (length k) + Z.of_nat (length v) + 2 ≤ buflen →
  buflen ≤ Z.of_nat (length buf) →
  load_record buflen (EnvState (k ++ equals_sign :: v) c buf env 0)
  = Again (EnvState [] xff
             (k ++ NUL :: v ++ NUL :: drop (length k + length v + 2) buf)
             (<[k := v]> env) 0).
Proof.
  intros Hne Hk Hv Hfit Hbuf. unfold load_record. simpl.
  rewrite read_record_pair_eof by done. simpl.
  rewrite cstring_at_0, cstring_app_NUL by by apply key_bytes_no_NUL.
  rewrite (cons_middle NUL k), app_assoc.
  rewrite cstring_at_app by (rewrite length_app; simpl; lia).
  rewrite cstring_app_NUL by by apply value_bytes_no_NUL.
  rewrite setenv_ok by (done || by apply key_bytes_no_equals).
  simpl. by rewrite <-app_assoc.
Qed.

(** A record that starts with '=': [setenv] refuses the empty name. *)
Lemma load_record_empty_key buflen v f c buf env :
  Forall value_byte v → Z.of_nat (length v) + 2 ≤ buflen →
  buflen ≤ Z.of_nat (length buf) →
  load_record buflen (EnvState (equals_sign :: v ++ NUL :: f) c buf env 0)
  = Return (-1)
      (EnvState f NUL (NUL :: v ++ NUL :: drop (length v + 2) buf) env
         EINVAL).
Proof.
  intros Hv Hfit Hbuf. unfold load_record. simpl es_file.
  rewrite (read_record_pair buflen [] v f) by (done || simpl; lia).
  reflexivity.
Qed.

(** Two runs with enough fuel agree. *)
Lemma env_loop_agree n m fclose_res buflen s x y :
  env_loop n fclose_res buflen s = Some x →
  env_loop m fclose_res buflen s = Some y → x = y.
Proof.
  intros Hn Hm.
  apply (env_loop_mono _ (n `max` m)%nat) in Hn; [|lia].
  apply (env_loop_mono _ (n `max` m)%nat) in Hm; [|lia].
  congruence.
Qed.

(** The loop takes well-formed records one per turn, whatever follows them
    and whatever the fuel. *)
Lemma env_loop_through_records fclose_res buflen recs f c buf env :
  Forall (well_formed_record buflen) recs → c ≠ xff →
  buflen ≤ Z.of_nat (length buf) →
  ∃ c' buf',
    c' ≠ xff ∧ length buf' = length buf ∧
    ∀ n, env_loop (length recs + n) fclose_res buflen
           (EnvState (environ_bytes recs ++ f) c buf env 0)
         = env_loop n fclose_res buflen
             (EnvState f c' buf' (install recs env) 0).
Proof.
  intros Hrecs. revert c buf env.
  induction Hrecs as [|[k v] recs (Hne & Hk & Hv & Hfit) _ IH];
    intros c buf env Hc Hbuf.
  - by exists c, buf.
  - set (buf1 := k ++ NUL :: v ++ NUL :: drop (length k + length v + 2) buf).
    assert (length buf1 = length buf) as Hlen.
    { unfold buf1. rewrite length_app. simpl.
      rewrite length_app. simpl. rewrite length_drop.
      cbn [fst snd] in Hfit. lia. }
    destruct (IH NUL buf1 (<[k:=v]> env)) as (c' & buf' & ? & ? & Hloop);
      [done|lia|].
    exists c', buf'. split_and!; [done|congruence|].
    intros n. cbn [fst snd length Nat.add] in *.
    rewrite environ_bytes_cons, env_loop_unfold. cbn [fst snd es_c].
    rewrite char_is_EOF, bool_decide_eq_false_2 by done. cbn [negb].
    rewrite load_record_pair by done. apply Hloop.
Qed.

(** What the loop does behind well-formed records decides the result. *)
Lemma env_loop_after_records fclose_res buflen recs f c0 buf env :
  Forall (well_formed_record buflen) recs → c0 ≠ xff →
  buflen ≤ Z.of_nat (length buf) →
  ∃ c buf',
    c ≠ xff ∧ length buf' = length buf ∧
    ∀ r s n,
      env_loop n fclose_res buflen
        (EnvState f c buf' (install recs env) 0) = Some (r, s) →
      load_environment_on fclose_res (environ_bytes recs ++ f) c0 buf buflen
        env 0 = Some (r, s).
Proof.
  intros Hrecs Hc Hbuf.
  destruct (env_loop_through_records fclose_res buflen recs f c0 buf env)
    as (c & buf' & Hc' & Hlen & Hloop); [done..|].
  exists c, buf'. split_and!; [done..|].
  intros r s n Hrun.
  destruct (load_environment_on_total fclose_res (environ_bytes recs ++ f)
              c0 buf buflen env 0) as [x Hx].
  rewrite Hx. f_equal.
  rewrite <-Hloop in Hrun.
  exact (env_loop_agree _ _ _ _ _ _ _ Hx Hrun).
Qed.

(** X1.  A record with no '=' before its NUL, behind any number of
    well-formed records: [load_environment] returns [EINVAL] there, the
    pairs before it are installed, nothing of the record is, and the rest of
    the file is not read. *)
Theorem record_without_equals_rejected os path c0 buf buflen env recs k f :
  fopen os path = Some (environ_bytes recs ++ k ++ NUL :: f) →
  Forall (well_formed_record buflen) recs →
  Forall key_byte k → Z.of_nat (length k) < buflen →
  c0 ≠ xff → buflen ≤ Z.of_nat (length buf) →
  ∃ s, load_environment os path c0 buf buflen env 0 = Some (EINVAL, s)
       ∧ es_env s = install recs env ∧ es_file s = f.
Proof.
  intros Hopen Hrecs Hk Hfit Hc Hbuf. unfold load_environment. rewrite Hopen.
  destruct (env_loop_after_records (sys_fclose os) buflen recs
              (k ++ NUL :: f) c0 buf env)
    as (c & buf' & Hc' & Hlen & Hrun); [done..|].
  eexists. split.
  - apply (Hrun _ _ 1%nat). rewrite env_loop_unfold. cbn [es_c].
    rewrite char_is_EOF, bool_decide_eq_false_2 by done. cbn [negb].
    by rewrite load_record_no_equals.
  - done.
Qed.

Lemma record_without_equals_rejected_witness :
  ∃ s, load_environment
         (quiet_sys [] (environ_bytes foo_bar ++ bytes_of "BROKEN" ++ NUL
                          :: bytes_of "X=y") None)
         environ_path NUL (replicate 16 NUL) 16 ∅ 0 = Some (EINVAL, s)
       ∧ es_env s = install foo_bar ∅ ∧ es_file s = bytes_of "X=y".
Proof.
  apply (record_without_equals_rejected _ _ _ _ _ _ foo_bar
           (bytes_of "BROKEN") (bytes_of "X=y")).
  - apply fopen_environ.
  - decide_closed.
  - decide_closed.
  - by vm_compute.
  - discriminate.
  - by vm_compute.
Defined.

(** X2.  A record of [buflen] bytes or more before any NUL or 0xFF, with or
    without a '=' in it, behind any number of well-formed records:
    [load_environment] returns [E2BIG] when the buffer is full, whatever
    follows in the file, with the pairs before the record installed and
    nothing of the record. *)
Theorem oversized_record_rejected os path c0 buf buflen env recs data b f :
  fopen os path = Some (environ_bytes recs ++ data ++ b :: f) →
  Forall (well_formed_record buflen) recs →
  Forall value_byte data → value_byte b →
  Z.of_nat (length data) = buflen - 1 →
  c0 ≠ xff → buflen ≤ Z.of_nat (length buf) →
  ∃ s, load_environment os path c0 buf buflen env 0 = Some (E2BIG, s)
       ∧ es_env s = install recs env ∧ es_file s = f.
Proof.
  intros Hopen Hrecs Hdata Hb Hlen Hc Hbuf.
  unfold load_environment. rewrite Hopen.
  destruct (env_loop_after_records (sys_fclose os) buflen recs
              (data ++ b :: f) c0 buf env)
    as (c & buf' & Hc' & _ & Hrun); [done..|].
  destruct (read_record_long buflen data (b :: f) 0 c buf' None)
    as (buf1 & value1 & Hread); [done|lia|lia|].
  eexists. split.
  - apply (Hrun _ _ 1%nat). rewrite env_loop_unfold. cbn [es_c].
    rewrite char_is_EOF, bool_decide_eq_false_2 by done. cbn [negb].
    unfold load_record. cbn [es_file es_c es_buf].
    rewrite Hread, read_record_full by (done || lia). reflexivity.
  - done.
Qed.

Lemma oversized_record_rejected_witness :
  ∃ s, load_environment
         (quiet_sys [] (environ_bytes foo_bar ++ bytes_of "PATH=/b"
                          ++ x69 :: bytes_of "n" ++ [NUL]) None)
         environ_path NUL (replicate 8 NUL) 8 ∅ 0 = Some (E2BIG, s)
       ∧ es_env s = install foo_bar ∅ ∧ es_file s = bytes_of "n" ++ [NUL].
Proof.
  apply (oversized_record_rejected _ _ _ _ _ _ foo_bar (bytes_of "PATH=/b")
           x69 (bytes_of "n" ++ [NUL])).
  - apply fopen_environ.
  - decide_closed.
  - decide_closed.
  - decide_closed.
  - by vm_compute.
  - discriminate.
  - by vm_compute.
Defined.

(** X3.  A last record [k=v] that the end of the file cuts off before its
    NUL is installed like the others, and this is how [load_environment]
    comes to return the status of [fclose]. *)
Theorem unterminated_record_installed os path c0 buf buflen env recs k v :
  fopen os path = Some (environ_bytes recs ++ k ++ equals_sign :: v) →
  Forall (well_formed_record buflen) recs →
  well_formed_record buflen (k, v) →
  c0 ≠ xff → buflen ≤ Z.of_nat (length buf) →
  ∃ s, load_environment os path c0 buf buflen env 0
       = Some (sys_fclose os, s)
       ∧ es_env s = install (recs ++ [(k, v)]) env ∧ es_file s = [].
Proof.
  intros Hopen Hrecs (Hne & Hk & Hv & Hfit) Hc Hbuf.
  cbn [fst snd] in *.
  unfold load_environment. rewrite Hopen.
  destruct (env_loop_after_records (sys_fclose os) buflen recs
              (k ++ equals_sign :: v) c0 buf env)
    as (c & buf' & Hc' & Hlen & Hrun); [done..|].
  eexists. split.
  - apply (Hrun _ _ 2%nat). rewrite env_loop_unfold. cbn [es_c].
    rewrite char_is_EOF, bool_decide_eq_false_2 by done. cbn [negb].
    rewrite load_record_pair_eof by (done || lia).
    reflexivity.
  - split; [|done]. cbn [es_env]. unfold install. by rewrite foldl_app.
Qed.

Lemma unterminated_record_installed_witness :
  ∃ s, load_environment
         (quiet_sys [] (environ_bytes foo_bar ++ bytes_of "X"
                          ++ equals_sign :: bytes_of "y") None)
         environ_path NUL (replicate 16 NUL) 16 ∅ 0
       = Some (sys_fclose
                 (quiet_sys [] (environ_bytes foo_bar ++ bytes_of "X"
                                  ++ equals_sign :: bytes_of "y") None), s)
       ∧ es_env s = install (foo_bar ++ [(bytes_of "X", bytes_of "y")]) ∅
       ∧ es_file s = [].
Proof.
  apply (unterminated_record_installed _ _ _ _ _ _ foo_bar (bytes_of "X")
           (bytes_of "y")).
  - apply fopen_environ.
  - decide_closed.
  - decide_closed.
  - discriminate.
  - by vm_compute.
Defined.

Lemma load_environment_on_empty_key fclose_res recs v f c0 buf buflen env :
  Forall (well_formed_record buflen) recs →
  Forall value_byte v → Z.of_nat (length v) + 2 ≤ buflen →
  c0 ≠ xff → buflen ≤ Z.of_nat (length buf) →
  ∃ s, load_environment_on fclose_res
         (environ_bytes recs ++ equals_sign :: v ++ NUL :: f) c0 buf buflen
         env 0 = Some (-1, s)
       ∧ es_env s = install recs env ∧ es_errno s = EINVAL.
Proof.
  intros Hrecs Hv Hfit Hc Hbuf.
  destruct (env_loop_after_records fclose_res buflen recs
              (equals_sign :: v ++ NUL :: f) c0 buf env)
    as (c & buf' & Hc' & Hlen & Hrun); [done..|].
  eexists. split.
  - apply (Hrun _ _ 1%nat). rewrite env_loop_unfold. cbn [es_c].
    rewrite char_is_EOF, bool_decide_eq_false_2 by done. cbn [negb].
    by rewrite load_record_empty_key by (done || lia).
  - done.
Qed.

(** X4.  A record that starts with '=', behind any number of well-formed
    records: [setenv] refuses the empty name, [load_environment] returns -1
    with [errno] set to [EINVAL], and the pairs before the record stay
    installed. *)
Theorem empty_key_rejected os path c0 buf buflen env recs v f :
  fopen os path = Some (environ_bytes recs ++ equals_sign :: v ++ NUL :: f) →
  Forall (well_formed_record buflen) recs →
  Forall value_byte v → Z.of_nat (length v) + 2 ≤ buflen →
  c0 ≠ xff → buflen ≤ Z.of_nat (length buf) →
  ∃ s, load_environment os path c0 buf buflen env 0 = Some (-1, s)
       ∧ es_env s = install recs env ∧ es_errno s = EINVAL.
Proof.
  intros Hopen Hrecs Hv Hfit Hc Hbuf.
  unfold load_environment. rewrite Hopen.
  by apply load_environment_on_empty_key.
Qed.

Lemma empty_key_rejected_witness :
  ∃ s, load_environment
         (quiet_sys [] (environ_bytes foo_bar ++ equals_sign
                          :: bytes_of "y" ++ NUL :: bytes_of "Z=1") None)
         environ_path NUL (replicate 16 NUL) 16 ∅ 0 = Some (-1, s)
       ∧ es_env s = install foo_bar ∅ ∧ es_errno s = EINVAL.
Proof.
  apply (empty_key_rejected _ _ _ _ _ _ foo_bar (bytes_of "y")
           (bytes_of "Z=1")).
  - apply fopen_environ.
  - decide_closed.
  - decide_closed.
  - by vm_compute.
  - discriminate.
  - by vm_compute.
Defined.

(** ** What every run of [load_environment] keeps *)

Lemma framed_refl buflen f buf : framed buflen f buf f buf.
Proof. by repeat split. Qed.

Lemma framed_trans buflen f1 b1 f2 b2 f3 b3 :
  framed buflen f1 b1 f2 b2 → framed buflen f2 b2 f3 b3 →
  framed buflen f1 b1 f3 b3.
Proof.
  intros (Hf & Hl & Hd) (Hf' & Hl' & Hd'). split_and!.
  - by etrans.
  - congruence.
  - congruence.
Qed.

(** A byte read and a store below [buflen]. *)
Lemma framed_step buflen b f buf i x f' buf' :
  0 ≤ i < buflen →
  framed buflen f (<[Z.to_nat i := x]> buf) f' buf' →
  framed buflen (b :: f) buf f' buf'.
Proof.
  intros Hi (Hf & Hl & Hd). split_and!.
  - by apply suffix_cons_r.
  - by rewrite Hl, length_insert.
  - rewrite Hd. apply drop_insert_lt. lia.
Qed.

Lemma read_record_frame buflen f i c buf value :
  0 ≤ i →
  match read_record buflen f i c buf value with
  | ForDone f' _ buf' _ => framed buflen f buf f' buf'
  | ForReturn code f' _ buf' => code = E2BIG ∧ framed buflen f buf f' buf'
  end.
Proof.
  revert i c buf value.
  induction f as [|b f IH]; intros i c buf value Hi; simpl.
  - destruct (i <? buflen) eqn:Hlt; simpl; [|apply framed_refl].
    apply Z.ltb_lt in Hlt. split_and!; [done|by rewrite length_insert|].
    apply drop_insert_lt. lia.
  - destruct (i <? buflen) eqn:Hlt; simpl; [|apply framed_refl].
    apply Z.ltb_lt in Hlt.
    assert (∀ x, framed buflen (b :: f) buf f (<[Z.to_nat i := x]> buf))
      as Hone.
    { intros x. eapply framed_step; [done|apply framed_refl]. }
    destruct (char_to_int _ =? EOF); [apply Hone|].
    destruct (char_to_int _ =? 0); [apply Hone|].
    destruct (i =? buflen - 1); [split; [done|apply Hone]|].
    rewrite list_insert_insert_eq.
    assert (∀ x c' value',
              match read_record buflen f (i + 1) c'
                      (<[Z.to_nat i := x]> buf) value' with
              | ForDone f' _ buf' _ => framed buflen (b :: f) buf f' buf'
              | ForReturn code f' _ buf' =>
                  code = E2BIG ∧ framed buflen (b :: f) buf f' buf'
              end) as Hrec.
    { intros x c' value'.
      specialize (IH (i + 1) c' (<[Z.to_nat i := x]> buf) value').
      destruct (read_record _ _ _ _ _ _); [|destruct IH as [? IH]; [lia|]];
        [|split; [done|]]; eapply framed_step; eauto with lia. }
    destruct value as [off|]; [apply Hrec|].
    destruct (char_to_int _ =? char_to_int equals_sign); apply Hrec.
Qed.

Lemma setenv_dom name value env errno :
  dom env ⊆ dom (setenv name value env errno).1.2.
Proof.
  unfold setenv. case_decide; simpl; [done|apply dom_insert_subseteq].
Qed.

Lemma load_record_frame buflen s :
  match load_record buflen s with
  | Return code s' =>
      (code = -1 ∨ code = E2BIG ∨ code = EINVAL)
      ∧ framed buflen (es_file s) (es_buf s) (es_file s') (es_buf s')
      ∧ dom (es_env s) ⊆ dom (es_env s')
  | Again s' =>
      framed buflen (es_file s) (es_buf s) (es_file s') (es_buf s')
      ∧ dom (es_env s) ⊆ dom (es_env s')
  end.
Proof.
  unfold load_record.
  pose proof (read_record_frame buflen (es_file s) 0 (es_c s) (es_buf s)
                None) as Hread.
  destruct (read_record _ _ _ _ _ _) as [f c buf value|code f c buf].
  - specialize (Hread (Z.le_refl 0)).
    destruct (negb (es_errno s =? 0)); [by auto|].
    destruct value as [off|]; [|by auto 6].
    pose proof (setenv_dom (cstring_at buf 0) (cstring_at buf off)
                  (es_env s) (es_errno s)) as Hdom.
    destruct (setenv _ _ _ _) as [[r env] errno].
    destruct (negb (r =? 0)); by auto.
  - destruct (Hread (Z.le_refl 0)) as [-> ?]. by auto 6.
Qed.

Lemma env_loop_frame fuel fclose_res buflen s r s' :
  env_loop fuel fclose_res buflen s = Some (r, s') →
  env_status fclose_res r
  ∧ framed buflen (es_file s) (es_buf s) (es_file s') (es_buf s')
  ∧ dom (es_env s) ⊆ dom (es_env s').
Proof.
  revert s. induction fuel as [|fuel IH]; intros s H; [done|].
  rewrite env_loop_unfold in H.
  destruct (negb (char_to_int (es_c s) =? EOF)).
  - pose proof (load_record_frame buflen s) as Hturn.
    destruct (load_record buflen s) as [code t|t].
    + injection H as <- <-. destruct Hturn as (Hcode & ? & ?).
      split_and!; [|done..]. unfold env_status.
      destruct Hcode as [Hc|[Hc|Hc]]; rewrite Hc; by auto.
    + destruct Hturn as (Hframe & Hdom).
      destruct (IH _ H) as (? & ? & ?).
      split_and!; [done|by eapply framed_trans|by etrans].
  - unfold env_status.
    destruct (negb (es_errno s =? 0)); injection H as <- <-;
      (split_and!; [by auto|apply framed_refl|done]).
Qed.

(** X5.  [load_environment] always returns, with one of four statuses: -1,
    [E2BIG], [EINVAL] or the status of [fclose]; and what it leaves unread
    is the end of the stream: it reads from the front, each byte once. *)
Theorem load_environment_statuses fclose_res f c0 buf buflen env errno :
  ∃ r s, load_environment_on fclose_res f c0 buf buflen env errno
         = Some (r, s)
         ∧ env_status fclose_res r ∧ es_file s `suffix_of` f.
Proof.
  destruct (load_environment_on_total fclose_res f c0 buf buflen env errno)
    as [[r s] H].
  exists r, s. split; [done|].
  apply env_loop_frame in H as (? & (? & _) & _). done.
Qed.

(** X6.  [load_environment] never takes a variable out of the environment:
    every name that was set before the call is set after it, whatever the
    file holds and whatever status comes back. *)
Theorem load_environment_keeps_names os path c0 buf buflen env errno :
  ∃ r s, load_environment os path c0 buf buflen env errno = Some (r, s)
         ∧ dom env ⊆ dom (es_env s).
Proof.
  unfold load_environment. destruct (fopen os path) as [f|].
  - destruct (load_environment_on_total (sys_fclose os) f c0 buf buflen env
                errno) as [[r s] H].
    exists r, s. split; [done|].
    by apply env_loop_frame in H as (_ & _ & ?).
  - by eexists _, _.
Qed.

(** X7.  [load_environment] stores into the first [buflen] bytes of the
    buffer only: the buffer keeps its length, and its bytes from index
    [buflen] on are what they were, whatever the file holds. *)
Theorem load_environment_stays_in_buffer os path c0 buf buflen env errno :
  ∃ r s, load_environment os path c0 buf buflen env errno = Some (r, s)
         ∧ length (es_buf s) = length buf
         ∧ drop (Z.to_nat buflen) (es_buf s) = drop (Z.to_nat buflen) buf.
Proof.
  unfold load_environment. destruct (fopen os path) as [f|].
  - destruct (load_environment_on_total (sys_fclose os) f c0 buf buflen env
                errno) as [[r s] H].
    exists r, s. split; [done|].
    by apply env_loop_frame in H as (_ & (_ & ? & ?) & _).
  - by eexists _, _.
Qed.

(** X8.  [load_environment] does not reset [errno]: entered with [errno]
    other than 0 it installs nothing and returns -1, or [E2BIG] when the
    first record fills the buffer, whatever the file holds. *)
Theorem stale_errno_fails os path c0 buf buflen env errno :
  errno ≠ 0 →
  ∃ r s, load_environment os path c0 buf buflen env errno = Some (r, s)
         ∧ (r = -1 ∨ r = E2BIG) ∧ es_env s = env.
Proof.
  intros Herrno. unfold load_environment.
  destruct (fopen os path) as [f|]; [|by eexists _, _; auto].
  unfold load_environment_on. rewrite env_loop_unfold. cbn [es_c es_errno].
  rewrite (proj2 (Z.eqb_neq errno 0)) by done. cbn [negb].
  destruct (negb (char_to_int c0 =? EOF)); [|by eexists _, _; auto].
  unfold load_record. cbn [es_file es_c es_buf es_env es_errno].
  pose proof (read_record_frame buflen f 0 c0 buf None (Z.le_refl 0))
    as Hread.
  destruct (read_record _ _ _ _ _ _) as [f' c' buf' value|code f' c' buf'].
  - rewrite (proj2 (Z.eqb_neq errno 0)) by done. by eexists _, _; auto.
  - destruct Hread as [-> _]. by eexists _, _; auto.
Qed.

Lemma stale_errno_fails_witness :
  ∃ r s, load_environment (quiet_sys [] (environ_bytes foo_bar) None)
           environ_path NUL (replicate 16 NUL) 16 ∅ ENOENT = Some (r, s)
         ∧ (r = -1 ∨ r = E2BIG) ∧ es_env s = ∅.
Proof. apply stale_errno_fails. discriminate. Defined.

(** ** The buffer is written before it is read *)

Lemma cstring_app_has_NUL (w rest : list byte) :
  NUL ∈ w → cstring (w ++ rest) = cstring w.
Proof.
  induction w as [|b w IH]; intros Hin; [by apply elem_of_nil in Hin|].
  simpl. case_decide; [done|].
  apply elem_of_cons in Hin as [?|Hin]; [congruence|]. by rewrite IH.
Qed.

(** The reader's stores are the bytes of a string [w] put at [i], [i+1],
    ...; [w], and all the reader gives but the buffer, depend on the stream
    only.  When the loop is entered and ends otherwise than by [return], [w]
    ends in a NUL and [value] points into it. *)
Lemma read_record_writes buflen f i c value :
  0 ≤ i →
  ∃ w,
    (∃ f' c' v',
       (∀ buf, read_record buflen f i c buf value
               = ForDone f' c' (list_inserts (Z.to_nat i) w buf) v')
       ∧ ((w = [] ∧ v' = value ∧ buflen ≤ i) ∨
          (∃ w0, w = w0 ++ [NUL] ∧ i + Z.of_nat (length w) ≤ buflen
                 ∧ ∀ off, v' = Some off →
                     value = Some off ∨ i < off ≤ i + Z.of_nat (length w0))))
    ∨ (∃ code f' c',
         ∀ buf, read_record buflen f i c buf value
                = ForReturn code f' c' (list_inserts (Z.to_nat i) w buf)).
Proof.
  revert i c value.
  induction f as [|b f IH]; intros i c value Hi.
  - destruct (decide (i < buflen)) as [Hlt|Hge].
    + exists [NUL]. left. eexists _, _, _. split.
      * intros buf. by rewrite read_record_eof.
      * right. exists []. split_and!; [done|simpl; lia|auto].
    + exists []. left. eexists _, _, _. split.
      * intros buf. by rewrite read_record_stop by lia.
      * left. split_and!; [done..|lia].
  - destruct (decide (i < buflen)) as [Hlt|Hge]; cycle 1.
    { exists []. left. eexists _, _, _. split.
      - intros buf. by rewrite read_record_stop by lia.
      - left. split_and!; [done..|lia]. }
    destruct (decide (b = xff)) as [->|Hxff].
    { exists [NUL]. left. eexists _, _, _. split.
      - intros buf. by rewrite read_record_xff.
      - right. exists []. split_and!; [done|simpl; lia|auto]. }
    destruct (decide (b = NUL)) as [->|Hnul].
    { exists [NUL]. left. eexists _, _, _. split.
      - intros buf. by rewrite read_record_NUL.
      - right. exists []. split_and!; [done|simpl; lia|auto]. }
    destruct (decide (i = buflen - 1)) as [Hlast|Hlast].
    { exists [b]. right. eexists _, _, _. intros buf.
      by rewrite read_record_full. }
    assert (∃ x value1,
              (∀ c' buf, read_record buflen (b :: f) i c' buf value
                 = read_record buflen f (i + 1) b (<[Z.to_nat i := x]> buf)
                     value1)
              ∧ (value1 = value ∨ value1 = Some (i + 1)))
      as (x & value1 & Hstep & Hvalue1).
    { destruct value as [off|].
      - exists b, (Some off). split; [|by left]. intros c' buf.
        by rewrite read_record_plain by (done || lia).
      - destruct (decide (b = equals_sign)) as [->|Hne].
        + exists NUL, (Some (i + 1)). split; [|by right]. intros c' buf.
          by rewrite read_record_equals by lia.
        + exists b, None. split; [|by left]. intros c' buf.
          by rewrite read_record_plain by (done || lia). }
    destruct (IH (i + 1) b value1) as [w' Hw']; [lia|].
    assert (∀ buf, list_inserts (Z.to_nat (i + 1)) w'
                     (<[Z.to_nat i := x]> buf)
                   = list_inserts (Z.to_nat i) (x :: w') buf) as Hbuf.
    { intros buf. simpl.
      replace (Z.to_nat (i + 1)) with (S (Z.to_nat i)) by lia.
      by rewrite list_insert_inserts_lt by lia. }
    exists (x :: w').
    destruct Hw' as [(f' & c' & v' & Hrun & Hw')|(code & f' & c' & Hrun)].
    + left. exists f', c', v'. split.
      * intros buf. by rewrite Hstep, Hrun, Hbuf.
      * right. destruct Hw' as [(_ & _ & ?)|(w0 & -> & Hfit & Hoff)]; [lia|].
        exists (x :: w0). split_and!; [done|simpl in *; lia|].
        intros off Hv. destruct (Hoff off Hv) as [Heq|?]; [|simpl; lia].
        destruct Hvalue1 as [-> | ->]; [by left|].
        injection Heq as <-. right. simpl. lia.
    + right. exists code, f', c'. intros buf.
      by rewrite Hstep, Hrun, Hbuf.
Qed.

(** A string read at or behind the start of what the reader has just
    written lies within it. *)
Lemma cstring_at_written (w0 buf : list byte) (off : Z) :
  (length (w0 ++ [NUL]) ≤ length buf)%nat →
  0 ≤ off ≤ Z.of_nat (length w0) →
  cstring_at (list_inserts 0 (w0 ++ [NUL]) buf) off
  = cstring (drop (Z.to_nat off) (w0 ++ [NUL])).
Proof.
  intros Hlen Hoff. unfold cstring_at.
  rewrite list_inserts_0_app by done.
  rewrite drop_app_le by (rewrite length_app; simpl; lia).
  apply cstring_app_has_NUL.
  rewrite drop_app_le by lia. apply elem_of_app. right.
  by apply list_elem_of_singleton.
Qed.

Lemma load_record_ignores_buffer buflen s1 s2 :
  same_but_buf s1 s2 → buflen ≤ Z.of_nat (length (es_buf s1)) →
  match load_record buflen s1, load_record buflen s2 with
  | Return r1 t1, Return r2 t2 => r1 = r2 ∧ same_but_buf t1 t2
  | Again t1, Again t2 => same_but_buf t1 t2
  | _, _ => False
  end.
Proof.
  destruct s1 as [f c buf1 env errno], s2 as [f2 c2 buf2 env2 errno2].
  unfold same_but_buf. simpl. intros (<- & <- & <- & <- & Hlen) Hbuf.
  unfold load_record. simpl.
  destruct (read_record_writes buflen f 0 c None (Z.le_refl 0))
    as [w [(f' & c' & v' & Hrun & Hw)|(code & f' & c' & Hrun)]];
    rewrite !Hrun.
  - destruct (negb (errno =? 0)).
    { simpl. by rewrite !length_inserts. }
    destruct v' as [off|]; cycle 1.
    { simpl. by rewrite !length_inserts. }
    destruct Hw as [(_ & ? & _)|(w0 & -> & Hfit & Hoff)]; [done|].
    destruct (Hoff off eq_refl) as [?|Hin]; [done|].
    change (Z.to_nat 0) with 0%nat.
    rewrite !(cstring_at_written w0) by lia.
    destruct (setenv _ _ _ _) as [[r env'] errno'].
    destruct (negb (r =? 0)); simpl; by rewrite !length_inserts.
  - simpl. by rewrite !length_inserts.
Qed.

Lemma env_loop_ignores_buffer fuel fclose_res buflen s1 s2 r t1 :
  same_but_buf s1 s2 → buflen ≤ Z.of_nat (length (es_buf s1)) →
  env_loop fuel fclose_res buflen s1 = Some (r, t1) →
  ∃ t2, env_loop fuel fclose_res buflen s2 = Some (r, t2)
        ∧ same_but_buf t1 t2.
Proof.
  revert s1 s2.
  induction fuel as [|fuel IH]; intros s1 s2 Hsame Hbuf H; [done|].
  rewrite env_loop_unfold in *.
  pose proof Hsame as (_ & Hc & _ & Herrno & _).
  rewrite <-Hc, <-Herrno.
  destruct (negb (char_to_int (es_c s1) =? EOF)).
  - pose proof (load_record_ignores_buffer buflen s1 s2 Hsame Hbuf) as Hturn.
    pose proof (load_record_frame buflen s1) as Hframe.
    destruct (load_record buflen s1) as [code u1|u1],
             (load_record buflen s2) as [code2 u2|u2]; try done.
    + destruct Hturn as [<- ?]. injection H as <- <-. eauto.
    + destruct Hframe as [(_ & Hlen & _) _].
      eapply IH; [done| |done]. by rewrite Hlen.
  - destruct (negb (es_errno s1 =? 0)); injection H as <- <-; eauto.
Qed.

(** X9.  [load_environment] reads no byte of the buffer that it has not
    written: with a buffer of [buflen] bytes or more, the status, the
    environment, [errno] and what is left of the stream are the same
    whatever the buffer holds on entry. *)
Theorem load_environment_ignores_buffer os path c0 buf1 buf2 buflen env errno :
  length buf1 = length buf2 → buflen ≤ Z.of_nat (length buf1) →
  ∃ r s1 s2,
    load_environment os path c0 buf1 buflen env errno = Some (r, s1)
    ∧ load_environment os path c0 buf2 buflen env errno = Some (r, s2)
    ∧ es_env s1 = es_env s2 ∧ es_errno s1 = es_errno s2
    ∧ es_file s1 = es_file s2.
Proof.
  intros Hlen Hbuf. unfold load_environment.
  destruct (fopen os path) as [f|]; [|by eexists _, _, _].
  destruct (load_environment_on_total (sys_fclose os) f c0 buf1 buflen env
              errno) as [[r s1] H1].
  destruct (env_loop_ignores_buffer _ _ _
              (EnvState f c0 buf1 env errno)
              (EnvState f c0 buf2 env errno) _ _
              ltac:(by repeat split) Hbuf H1)
    as (s2 & H2 & (? & _ & ? & ? & _)).
  by exists r, s1, s2.
Qed.

Lemma load_environment_ignores_buffer_witness :
  ∃ r s1 s2,
    load_environment (quiet_sys [] (environ_bytes a_b_a) None) environ_path
      NUL (replicate 16 NUL) 16 ∅ 0 = Some (r, s1)
    ∧ load_environment (quiet_sys [] (environ_bytes a_b_a) None) environ_path
        NUL (replicate 16 x41) 16 ∅ 0 = Some (r, s2)
    ∧ es_env s1 = es_env s2 ∧ es_errno s1 = es_errno s2
    ∧ es_file s1 = es_file s2.
Proof.
  apply load_environment_ignores_buffer; [reflexivity|by vm_compute].
Defined.

(** ** More files for [readlines] *)

Lemma take_line_eof room l :
  newline ∉ l → Z.of_nat (length l) ≤ room → take_line room l = (l, []).
Proof.
  revert room. induction l as [|b l IH]; intros room Hl Hroom; [done|].
  apply not_elem_of_cons in Hl as [Hb Hl]. simpl in *.
  rewrite (proj2 (Z.leb_gt room 0)) by lia.
  rewrite decide_False by done.
  by rewrite IH by (done || lia).
Qed.

(** The last line of a file that does not end in a newline. *)
Lemma fgets_last buf size l :
  l ≠ [] → newline ∉ l → Z.of_nat (length l) + 1 ≤ size →
  fgets buf size l = (Some (list_inserts 0 (l ++ [NUL]) buf), []).
Proof.
  intros Hne Hl Hsize. unfold fgets.
  assert (0 < Z.of_nat (length l)) by (destruct l; [done|simpl; lia]).
  rewrite (proj2 (Z.leb_gt size 0)) by lia.
  rewrite (proj2 (Z.eqb_neq size 1)) by lia.
  rewrite take_line_eof by (done || lia).
  by destruct l.
Qed.

Lemma store_out {A} (a : list A) (i : Z) (x : A) :
  Z.of_nat (length a) ≤ i → store a i x = None.
Proof.
  intros Hi. unfold store.
  rewrite (proj2 (Z.ltb_ge i _)) by done. by rewrite andb_false_r.
Qed.

Lemma store_inv {A} (a a' : list A) (i : Z) (x : A) :
  store a i x = Some a' →
  0 ≤ i < Z.of_nat (length a) ∧ a' = <[Z.to_nat i := x]> a.
Proof.
  unfold store. destruct (0 <=? i) eqn:H0; [|done].
  destruct (i <? Z.of_nat (length a)) eqn:Hi; [|done].
  intros [= <-]. apply Z.leb_le in H0. apply Z.ltb_lt in Hi. done.
Qed.

(** The NULL stored behind the tokens. *)
Lemma store_sentinel (ts : list cstr) (lines : ptr_array) :
  (length ts < length lines)%nat →
  store (list_inserts 0 (Some <$> ts) lines) (Z.of_nat (length ts)) None
  = Some ((Some <$> ts) ++ None :: drop (S (length ts)) lines).
Proof.
  intros Hlen. rewrite store_in by (rewrite length_inserts; lia).
  f_equal.
  rewrite list_inserts_0_app by (rewrite length_fmap; lia).
  replace (Z.to_nat (Z.of_nat (length ts)))
    with (length (Some <$> ts)) by (rewrite length_fmap; lia).
  rewrite insert_at_app, length_fmap.
  by rewrite insert_0_drop by lia.
Qed.

(** X10.  A last line with no newline behind it loses its last byte: the
    token is cut one byte short, as if that byte were the newline. *)
Theorem missing_final_newline_cuts_token
    os path buf buflen lines maxlines errno ls l :
  fopen os path = Some (lines_bytes ls ++ l) → sys_fclose os = 0 →
  Forall (well_formed_line buflen) ls →
  l ≠ [] → well_formed_line buflen l →
  buflen ≤ INT_MAX → buflen ≤ Z.of_nat (length buf) →
  Z.of_nat (length ls) + 1 < maxlines →
  (length ls + 1 < length lines)%nat →
  ∃ lines' buf',
    readlines os path buf buflen lines maxlines errno
    = RlReturn (Z.of_nat (length ls) + 1) lines' buf' 0
    ∧ argv_list lines' = ls ++ [take (length l - 1) l].
Proof.
  intros Hopen Hclose Hls Hne (Hnl & Hnul & Hfit) Hmax Hbuf Hn Hroom.
  unfold readlines. rewrite Hopen, Hclose.
  destruct (readlines_loop_lines buflen ls
              (Z.to_nat (maxlines - 1) - length ls) 0 l buf lines)
    as (buf' & Hlen & Hloop); [done|done|done|done|lia|].
  replace (length ls + (Z.to_nat (maxlines - 1) - length ls))%nat
    with (Z.to_nat (maxlines - 1)) in Hloop by lia.
  rewrite Hloop.
  destruct (Z.to_nat (maxlines - 1) - length ls)%nat as [|k] eqn:Hk; [lia|].
  cbn [readlines_loop]. rewrite fgets_last by (done || lia).
  set (buf1 := list_inserts 0 (l ++ [NUL]) buf').
  assert (cstring buf1 = l) as ->.
  { unfold buf1. rewrite list_inserts_0_app
      by (rewrite length_app; simpl; lia).
    rewrite <-app_assoc. by apply cstring_app_NUL. }
  assert (0 < Z.of_nat (length l)) by (destruct l; [done|simpl; lia]).
  assert (strndup l ((strlen l - 1) mod SIZE_MOD) = take (length l - 1) l)
    as ->.
  { unfold strndup, strlen.
    rewrite Z.mod_small by (unfold INT_MAX, SIZE_MOD in *; lia).
    rewrite Z.min_l by lia. f_equal. lia. }
  set (tok := take (length l - 1) l).
  rewrite store_in by (rewrite length_inserts; lia).
  rewrite readlines_loop_eof by lia. simpl negb. cbv iota.
  assert (<[Z.to_nat (0 + Z.of_nat (length ls)) := Some tok]>
            (list_inserts (Z.to_nat 0) (Some <$> ls) lines)
          = list_inserts 0 (Some <$> (ls ++ [tok])) lines) as ->.
  { rewrite fmap_app, list_inserts_app_l. simpl.
    rewrite length_fmap. f_equal. lia. }
  replace (0 + Z.of_nat (length ls) + 1)
    with (Z.of_nat (length (ls ++ [tok])))
    by (rewrite length_app; simpl; lia).
  rewrite store_sentinel by (rewrite length_app; simpl; lia).
  replace (Z.of_nat (length (ls ++ [tok]))) with (Z.of_nat (length ls) + 1)
    by (rewrite length_app; simpl; lia).
  eexists _, _. split; [reflexivity|]. apply argv_list_tokens.
Qed.

Lemma missing_final_newline_cuts_token_witness :
  ∃ lines' buf',
    readlines (quiet_sys (lines_bytes echo_hello ++ bytes_of "world") []
                 None)
      cmdline_path (replicate 16 NUL) 16 (replicate 8 None) 8 0
    = RlReturn (Z.of_nat (length echo_hello) + 1) lines' buf' 0
    ∧ argv_list lines'
      = echo_hello
        ++ [take (length (bytes_of "world") - 1) (bytes_of "world")].
Proof.
  apply missing_final_newline_cuts_token.
  - apply fopen_cmdline.
  - reflexivity.
  - decide_closed.
  - discriminate.
  - decide_closed.
  - by vm_compute.
  - by vm_compute.
  - by vm_compute.
  - vm_compute. lia.
Defined.

(** X11.  [readlines] takes [maxlines - 1] lines and no more: when the file
    starts with that many well-formed lines they are the tokens, and what
    follows them in the file has no effect. *)
Theorem readlines_stops_at_maxlines
    os path buf buflen lines maxlines errno ls rest :
  fopen os path = Some (lines_bytes ls ++ rest) → sys_fclose os = 0 →
  Forall (well_formed_line buflen) ls →
  buflen ≤ INT_MAX → buflen ≤ Z.of_nat (length buf) →
  Z.of_nat (length ls) = maxlines - 1 →
  (length ls < length lines)%nat →
  ∃ lines' buf',
    readlines os path buf buflen lines maxlines errno
    = RlReturn (maxlines - 1) lines' buf' 0
    ∧ argv_list lines' = ls.
Proof.
  intros Hopen Hclose Hls Hmax Hbuf Hn Hroom.
  unfold readlines. rewrite Hopen, Hclose.
  destruct (readlines_loop_lines buflen ls 0 0 rest buf lines)
    as (buf' & Hlen & Hloop); [done|done|done|done|lia|].
  replace (length ls + 0)%nat with (Z.to_nat (maxlines - 1)) in Hloop by lia.
  rewrite Hloop. cbn [readlines_loop]. simpl negb. cbv iota.
  replace (0 + Z.of_nat (length ls)) with (Z.of_nat (length ls)) by lia.
  rewrite store_sentinel by done. rewrite Hn.
  eexists _, _. split; [reflexivity|]. apply argv_list_tokens.
Qed.

Lemma readlines_stops_at_maxlines_witness :
  ∃ lines' buf',
    readlines (quiet_sys (lines_bytes echo_hello ++ bytes_of "more") []
                 None)
      cmdline_path (replicate 16 NUL) 16 (replicate 8 None) 3 0
    = RlReturn (3 - 1) lines' buf' 0
    ∧ argv_list lines' = echo_hello.
Proof.
  apply (readlines_stops_at_maxlines _ _ _ _ _ _ _ echo_hello
           (bytes_of "more")).
  - apply fopen_cmdline.
  - reflexivity.
  - decide_closed.
  - by vm_compute.
  - by vm_compute.
  - reflexivity.
  - vm_compute. lia.
Defined.

(** ** What every run of [readlines] gives *)

(** The cells below [n] hold tokens, all through the loop. *)
Lemma readlines_loop_tokens k n f buf buflen lines ts n' f' buf' lines' :
  0 ≤ n → take (Z.to_nat n) lines = Some <$> ts →
  readlines_loop k n f buf buflen lines = Some (n', f', buf', lines') →
  n ≤ n' ≤ n + Z.of_nat k ∧ length lines' = length lines ∧
  ∃ ts', take (Z.to_nat n') lines' = Some <$> ts'.
Proof.
  revert n f buf lines ts.
  induction k as [|k IH]; intros n f buf lines ts Hn Hts H; simpl in H.
  - injection H as <- <- <- <-. split_and!; [lia..|done|by exists ts].
  - destruct (fgets buf buflen f) as [[buf1|] f1].
    + destruct (store lines n _) as [lines1|] eqn:Hstore; [|done].
      apply store_inv in Hstore as [Hin ->].
      eapply (IH _ _ _ _ (ts ++ [_])) in H as (? & Hlen & ?); [|lia|].
      * rewrite length_insert in Hlen. split_and!; [lia..|done|done].
      * replace (Z.to_nat (n + 1)) with (S (Z.to_nat n)) by lia.
        erewrite take_S_r by (apply list_lookup_insert_eq; lia).
        rewrite take_insert_ge by lia. by rewrite Hts, fmap_app.
    + injection H as <- <- <- <-. split_and!; [lia..|done|by exists ts].
Qed.

(** X12.  Whatever the file holds, when [readlines] returns a count [n]
    other than -1, [n] lies between 0 and [maxlines - 1], the array has its
    length, its first [n] cells hold strings and cell [n] holds NULL: the
    array is an [argv] of exactly [n] arguments. *)
Theorem readlines_gives_argv
    os path buf buflen lines maxlines errno n lines' buf' errno' :
  readlines os path buf buflen lines maxlines errno
  = RlReturn n lines' buf' errno' →
  n ≠ -1 →
  0 ≤ n ≤ Z.max 0 (maxlines - 1) ∧ length lines' = length lines
  ∧ argv_of_length n lines'.
Proof.
  unfold readlines. destruct (fopen os path) as [f|]; [|by intros [= <-]].
  destruct (readlines_loop _ _ _ _ _ _) as [[[[m f'] buf1] lines1]|] eqn:Hloop;
    [|done].
  apply (readlines_loop_tokens _ _ _ _ _ _ []) in Hloop
    as (Hm & Hlen & ts & Hts); [|done..].
  simpl negb. cbv iota.
  destruct (negb (sys_fclose os =? 0)); [by intros [= <-]|].
  destruct (store lines1 m None) as [lines2|] eqn:Hstore; [|done].
  apply store_inv in Hstore as [Hin ->].
  intros [= <- <- _ _] _. split_and!; [lia|lia|by rewrite length_insert|].
  assert (<[Z.to_nat m := None]> lines1
          = (Some <$> ts) ++ None :: drop (S (Z.to_nat m)) lines1) as Hshape.
  { rewrite <-Hts, <-(take_insert_ge _ _ (Z.to_nat m) None) by lia.
    rewrite <-(drop_insert_lt lines1 (S (Z.to_nat m)) (Z.to_nat m) None)
      by lia.
    symmetry. apply take_drop_middle, list_lookup_insert_eq. lia. }
  split.
  - rewrite Hshape, argv_list_tokens.
    apply (f_equal length) in Hts.
    rewrite length_take, length_fmap in Hts. lia.
  - apply list_lookup_insert_eq. lia.
Qed.

Lemma readlines_gives_argv_witness :
  0 ≤ 3 ≤ Z.max 0 (8 - 1)
  ∧ length [Some (bytes_of "ab"); Some (bytes_of "cde"); Some (bytes_of "gh");
            None; Some [x00]]
    = length [None; None; None; None; Some [x00]]
  ∧ argv_of_length 3
      [Some (bytes_of "ab"); Some (bytes_of "cde"); Some (bytes_of "gh");
       None; Some [x00]].
Proof.
  apply (readlines_gives_argv
           (quiet_sys (bytes_of "ab" ++ newline :: bytes_of "cdefgh"
                         ++ [newline]) [] None)
           cmdline_path (replicate 8 NUL) 5 [None; None; None; None; Some [x00]]
           8 0 3 _ (bytes_of "gh" ++ [newline; NUL; NUL; NUL; NUL; NUL]) 0).
  - by vm_compute.
  - discriminate.
Defined.

(** ** The buffer of [readlines] *)

(** What [fgets] takes is no longer than the room it is given. *)
Lemma take_line_length room f :
  0 ≤ room → Z.of_nat (length (take_line room f).1) ≤ room.
Proof.
  revert room. induction f as [|b f IH]; intros room Hroom; simpl; [lia|].
  destruct (room <=? 0) eqn:Hle; [simpl; lia|]. apply Z.leb_gt in Hle.
  case_decide; [simpl; lia|].
  specialize (IH (room - 1)).
  destruct (take_line (room - 1) f) as [l r]. simpl in *. lia.
Qed.

(** [fgets] leaves in the buffer a string that does not depend on what the
    buffer held. *)
Lemma fgets_ignores_buffer buf1 buf2 size f :
  length buf1 = length buf2 → size ≤ Z.of_nat (length buf1) →
  match fgets buf1 size f, fgets buf2 size f with
  | (Some b1, f1), (Some b2, f2) =>
      f1 = f2 ∧ length b1 = length b2 ∧ length b1 = length buf1
      ∧ cstring b1 = cstring b2
  | (None, f1), (None, f2) => f1 = f2
  | _, _ => False
  end.
Proof.
  intros Hlen Hsize. unfold fgets.
  destruct (size <=? 0) eqn:H0; [done|]. apply Z.leb_gt in H0.
  destruct (size =? 1) eqn:H1.
  - rewrite !length_insert.
    destruct buf1 as [|x1 buf1], buf2 as [|x2 buf2]; simpl in *; try lia.
    done.
  - apply Z.eqb_neq in H1.
    pose proof (take_line_length (size - 1) f) as Hroom.
    destruct (take_line (size - 1) f) as [[|b l] r]; [done|].
    rewrite !length_inserts.
    rewrite !list_inserts_0_app by (simpl in *; rewrite length_app; simpl; lia).
    rewrite !(cstring_app_has_NUL ((b :: l) ++ [NUL]))
      by (apply elem_of_app; right; by apply list_elem_of_singleton).
    done.
Qed.

Lemma readlines_loop_ignores_buffer k n f buf1 buf2 buflen lines :
  length buf1 = length buf2 → buflen ≤ Z.of_nat (length buf1) →
  match readlines_loop k n f buf1 buflen lines,
        readlines_loop k n f buf2 buflen lines with
  | Some (n1, f1, b1, l1), Some (n2, f2, b2, l2) =>
      n1 = n2 ∧ f1 = f2 ∧ l1 = l2 ∧ length b1 = length b2
      ∧ length b1 = length buf1
  | None, None => True
  | _, _ => False
  end.
Proof.
  revert n f buf1 buf2 lines.
  induction k as [|k IH]; intros n f buf1 buf2 lines Hlen Hbuf; [done|].
  simpl.
  pose proof (fgets_ignores_buffer buf1 buf2 buflen f Hlen Hbuf) as Hgets.
  destruct (fgets buf1 buflen f) as [[b1|] f1],
           (fgets buf2 buflen f) as [[b2|] f2]; try done.
  destruct Hgets as (<- & Hl & Hl1 & <-).
  destruct (store lines n _) as [lines1|]; [|done].
  specialize (IH (n + 1) f1 b1 b2 lines1 Hl ltac:(lia)).
  destruct (readlines_loop k (n + 1) f1 b1 buflen lines1)
    as [[[[? ?] ?] ?]|],
    (readlines_loop k (n + 1) f1 b2 buflen lines1)
    as [[[[? ?] ?] ?]|]; try done.
  destruct IH as (? & ? & ? & ? & ?). split_and!; congruence.
Qed.

(** [readlines] on two buffers of one length. *)
Lemma readlines_two_buffers os path buf1 buf2 buflen lines maxlines errno :
  length buf1 = length buf2 → buflen ≤ Z.of_nat (length buf1) →
  match readlines os path buf1 buflen lines maxlines errno,
        readlines os path buf2 buflen lines maxlines errno with
  | RlReturn n1 l1 b1 e1, RlReturn n2 l2 b2 e2 =>
      n1 = n2 ∧ l1 = l2 ∧ e1 = e2 ∧ length b1 = length b2
      ∧ length b1 = length buf1
  | RlOverrun, RlOverrun => True
  | _, _ => False
  end.
Proof.
  intros Hlen Hbuf. unfold readlines.
  destruct (fopen os path) as [f|]; [|done].
  pose proof (readlines_loop_ignores_buffer (Z.to_nat (maxlines - 1)) 0 f
                buf1 buf2 buflen lines Hlen Hbuf) as Hloop.
  destruct (readlines_loop _ _ _ buf1 _ _) as [[[[n1 f1] b1] l1]|],
           (readlines_loop _ _ _ buf2 _ _) as [[[[n2 f2] b2] l2]|];
    try done.
  destruct Hloop as (<- & <- & <- & ? & ?). simpl negb. cbv iota.
  destruct (negb (sys_fclose os =? 0)); [done|].
  by destruct (store l1 n1 None).
Qed.

(** X13.  [readlines] reads no byte of the buffer that [fgets] has not
    written: with a buffer of [buflen] bytes or more, the count and the
    array it gives are the same whatever the buffer holds on entry. *)
Theorem readlines_ignores_buffer
    os path buf1 buf2 buflen lines maxlines errno :
  length buf1 = length buf2 → buflen ≤ Z.of_nat (length buf1) →
  match readlines os path buf1 buflen lines maxlines errno,
        readlines os path buf2 buflen lines maxlines errno with
  | RlReturn n1 l1 _ e1, RlReturn n2 l2 _ e2 => n1 = n2 ∧ l1 = l2 ∧ e1 = e2
  | RlOverrun, RlOverrun => True
  | _, _ => False
  end.
Proof.
  intros Hlen Hbuf.
  pose proof (readlines_two_buffers os path buf1 buf2 buflen lines maxlines
                errno Hlen Hbuf) as Htwo.
  destruct (readlines _ _ buf1 _ _ _ _), (readlines _ _ buf2 _ _ _ _);
    try done.
  by destruct Htwo as (? & ? & ? & _).
Qed.

Lemma readlines_ignores_buffer_witness :
  match readlines (quiet_sys (lines_bytes echo_hello) [] None) cmdline_path
          (replicate 16 NUL) 16 (replicate 4 None) 4 0,
        readlines (quiet_sys (lines_bytes echo_hello) [] None) cmdline_path
          (replicate 16 x41) 16 (replicate 4 None) 4 0 with
  | RlReturn n1 l1 _ e1, RlReturn n2 l2 _ e2 => n1 = n2 ∧ l1 = l2 ∧ e1 = e2
  | RlOverrun, RlOverrun => True
  | _, _ => False
  end.
Proof.
  apply readlines_ignores_buffer; [reflexivity|by vm_compute].
Defined.

(** ** More runs of [main] *)

(** [main] behind the test of [argc] and the copy of the identifier. *)
Lemma main_with_identifier w prog cid :
  w_argv w = [prog; cid] →
  Z.of_nat (length (stack_pname w)) = PNAME_SIZE →
  main w
  = match readlines (w_sys w) cmdline_path (stack_buf w) BUF_SIZE
            (stack_args w) sizeof_args (w_errno w) with
    | RlOverrun => ([], Undefined ArgsOverrun)
    | RlReturn r args buf errno =>
        if r =? -1
        then ([Perror "failed to read cmdline file"], Exited 1)
        else
          match load_environment (w_sys w) environ_path (stack_c w) buf
                  BUF_SIZE (w_env w) errno with
          | None => ([], Unfinished)
          | Some (r, s) =>
              if r =? -1
              then ([Perror "failed to read environment file"], Exited 1)
              else notify_and_exec (w_sys w)
                     ((padded cid <$> seq 0 15) ++ [NUL]) cid args (es_env s)
          end
    end.
Proof.
  intros Hargv Hpname. unfold main. rewrite Hargv.
  cbn [length Z.of_nat negb Z.eqb Pos.of_succ_nat Pos.succ
       Pos.eqb lookup list_lookup default from_option id].
  simpl. by rewrite prepare_pname_spec by (unfold PNAME_SIZE in *; lia).
Qed.

(** A file with as many well-formed lines as the array has cells: the NULL
    behind the tokens, or the next token, is stored outside the array. *)
Lemma readlines_overrun os path buf buflen lines maxlines errno ls rest :
  fopen os path = Some (lines_bytes ls ++ rest) → sys_fclose os = 0 →
  Forall (well_formed_line buflen) ls →
  buflen ≤ INT_MAX → buflen ≤ Z.of_nat (length buf) →
  length ls = length lines → Z.of_nat (length ls) < maxlines →
  readlines os path buf buflen lines maxlines errno = RlOverrun.
Proof.
  intros Hopen Hclose Hls Hmax Hbuf Hfull Hn.
  unfold readlines. rewrite Hopen, Hclose.
  destruct (readlines_loop_lines buflen ls
              (Z.to_nat (maxlines - 1) - length ls) 0 rest buf lines)
    as (buf' & Hlen & Hloop); [done|done|done|done|lia|].
  replace (length ls + (Z.to_nat (maxlines - 1) - length ls))%nat
    with (Z.to_nat (maxlines - 1)) in Hloop by lia.
  rewrite Hloop.
  set (lines1 := list_inserts (Z.to_nat 0) (Some <$> ls) lines).
  assert (∀ x, store lines1 (0 + Z.of_nat (length ls)) x = None) as Hout.
  { intros x. apply store_out. unfold lines1. rewrite length_inserts. lia. }
  destruct (Z.to_nat (maxlines - 1) - length ls)%nat as [|k]; simpl.
  - by rewrite Hout.
  - destruct (fgets buf' buflen rest) as [[buf1|] f1].
    + by rewrite Hout.
    + simpl. by rewrite Hout.
Qed.

(** X14.  [main] gives [readlines] the size of [args] in bytes, 2048, for
    its 256 cells: a [cmdline.txt] that starts with 256 well-formed lines
    makes [readlines] store outside [args]. *)
Theorem long_cmdline_overruns_args w prog cid ls rest :
  stack_ok w → w_argv w = [prog; cid] →
  fopen (w_sys w) cmdline_path = Some (lines_bytes ls ++ rest) →
  sys_fclose (w_sys w) = 0 →
  Forall (well_formed_line BUF_SIZE) ls →
  Z.of_nat (length ls) = ARGS_LEN →
  main w = ([], Undefined ArgsOverrun).
Proof.
  intros (Hbuf & Hargs & Hpname) Hargv Hopen Hclose Hls Hn.
  rewrite (main_with_identifier w prog cid) by done.
  rewrite (readlines_overrun _ _ _ _ _ _ _ ls rest); try done.
  - lia.
  - unfold ARGS_LEN in *. lia.
  - unfold sizeof_args, ARGS_LEN, sizeof_pointer in *. lia.
Qed.

Lemma long_cmdline_overruns_args_witness :
  main (staged_world (lines_bytes full_house ++ []) [] None)
  = ([], Undefined ArgsOverrun).
Proof.
  apply (long_cmdline_overruns_args _ (bytes_of "crio-lxc-init")
           (bytes_of "c1") full_house []).
  - apply staged_world_ok.
  - reflexivity.
  - apply fopen_cmdline.
  - reflexivity.
  - decide_closed.
  - by vm_compute.
Defined.

(** X15.  The whole hand-off: with an identifier as the one argument, a
    [cmdline.txt] of one to 255 well-formed lines, an [environ] of
    well-formed records, a pipe that takes the write, and an [execvp] that
    succeeds, the process is replaced by the program of the first line,
    with the lines as its arguments and the pairs set in its environment,
    and the last thing it did before was the write into the pipe.  Neither
    [errno] on entry nor the answer of [prctl] matters. *)
Theorem staged_run_execs w prog cid l0 ls recs sent :
  stack_ok w → w_argv w = [prog; cid] → stack_c w ≠ xff →
  fopen (w_sys w) cmdline_path = Some (lines_bytes (l0 :: ls)) →
  fopen (w_sys w) environ_path = Some (environ_bytes recs) →
  sys_fclose (w_sys w) = 0 →
  Forall (well_formed_line BUF_SIZE) (l0 :: ls) →
  Z.of_nat (length (l0 :: ls)) < ARGS_LEN →
  Forall (well_formed_record BUF_SIZE) recs →
  writefifo (w_sys w) syncfifo cid = (0, sent) →
  sys_execvp (w_sys w) l0 (l0 :: ls) (install recs (w_env w)) = None →
  (main w).2 = Replaced l0 (l0 :: ls) (install recs (w_env w))
  ∧ last (main w).1 = Some (FifoWrite sent).
Proof.
  intros Hstack Hargv Hc Hcmd Henv Hclose Hls Hn Hrecs Hfifo Hexec.
  rewrite (main_staged w (w_sys w) prog cid (l0 :: ls) EINVAL
             (install recs (w_env w))); try done.
  - unfold notify_and_exec. rewrite Hfifo. simpl.
    rewrite argv_list_tokens, Hexec. simpl. split; [done|].
    apply last_snoc.
  - intros buf Hbuf. unfold load_environment. rewrite Henv.
    destruct (load_environment_on_records (sys_fclose (w_sys w)) recs
                (stack_c w) buf BUF_SIZE (w_env w))
      as (s & Hs & Hinst & _); [done|done|lia|].
    by exists s.
Qed.

Lemma staged_run_execs_witness :
  (main (staged_world (lines_bytes echo_hello) (environ_bytes foo_bar)
           None)).2
  = Replaced (bytes_of "/bin/echo") echo_hello (install foo_bar ∅)
  ∧ last (main (staged_world (lines_bytes echo_hello)
                  (environ_bytes foo_bar) None)).1
    = Some (FifoWrite (bytes_of "c1")).
Proof.
  refine (staged_run_execs
            (staged_world (lines_bytes echo_hello) (environ_bytes foo_bar)
               None)
            (bytes_of "crio-lxc-init") (bytes_of "c1")
            (bytes_of "/bin/echo") [bytes_of "hello"] foo_bar
            (bytes_of "c1") _ _ _ _ _ _ _ _ _ _ _).
  - apply staged_world_ok.
  - reflexivity.
  - discriminate.
  - apply fopen_cmdline.
  - apply fopen_environ.
  - reflexivity.
  - apply echo_hello_well_formed.
  - by vm_compute.
  - apply foo_bar_well_formed.
  - reflexivity.
  - reflexivity.
Defined.

(** X16.  [main] never replaces the process without the rendezvous: when a
    run ends in a successful [execvp], the last event before it is the write
    into the pipe, of a prefix of the identifier, with [writefifo] returning
    other than -1; the program started is the first argument of the argument
    list it is given. *)
Theorem exec_only_after_rendezvous w tr file argv env :
  main w = (tr, Replaced file argv env) →
  ∃ sent,
    last tr = Some (FifoWrite sent)
    ∧ sent `prefix_of` default [] (w_argv w !! 1%nat)
    ∧ (writefifo (w_sys w) syncfifo (default [] (w_argv w !! 1%nat))).1 ≠ -1
    ∧ head argv = Some file.
Proof.
  unfold main.
  destruct (negb _); [done|].
  destruct (prepare_pname _ _); [|done].
  destruct (readlines _ _ _ _ _ _ _) as [r args buf errno|]; [|done].
  destruct (r =? -1); [done|].
  destruct (load_environment _ _ _ _ _ _ _) as [[r' s]|]; [|done].
  destruct (r' =? -1); [done|].
  unfold notify_and_exec.
  destruct (writefifo _ _ _) as [r'' sent] eqn:Hfifo.
  destruct (r'' =? -1) eqn:Hr; [done|].
  destruct args as [|[file'|] args]; [done| |done].
  destruct (sys_execvp _ _ _ _) as [e|]; [done|].
  intros [= <- <- <- <-]. exists sent. split_and!.
  - apply last_snoc.
  - unfold writefifo in Hfifo.
    destruct (_ =? -1); [by injection Hfifo as <- <-; apply prefix_nil|].
    destruct (_ =? -1); injection Hfifo as <- <-;
      [apply prefix_nil|apply prefix_take].
  - simpl. by apply Z.eqb_neq.
  - done.
Qed.

Lemma exec_only_after_rendezvous_witness :
  ∃ sent,
    last [SetName (bytes_of "c1"); FifoWrite (bytes_of "c1")]
    = Some (FifoWrite sent)
    ∧ sent `prefix_of`
        default [] (w_argv (staged_world (lines_bytes echo_hello)
                              (environ_bytes foo_bar) None) !! 1%nat)
    ∧ (writefifo (w_sys (staged_world (lines_bytes echo_hello)
                           (environ_bytes foo_bar) None)) syncfifo
         (default [] (w_argv (staged_world (lines_bytes echo_hello)
                                (environ_bytes foo_bar) None) !! 1%nat))).1
      ≠ -1
    ∧ head echo_hello = Some (bytes_of "/bin/echo").
Proof.
  exact (exec_only_after_rendezvous _ _ _ _ _ end_to_end).
Defined.

(** X17.  A failure of [prctl] changes nothing but the diagnostic: whatever
    [prctl] answers, the run ends the same way, with the same exit status or
    the same program, arguments and environment. *)
Theorem prctl_failure_not_fatal answer w :
  (main (set_prctl answer w)).2 = (main w).2.
Proof.
  unfold main, set_prctl. cbn [w_argv w_env w_errno w_sys stack_buf
                               stack_args stack_pname stack_c].
  destruct (negb _); [done|].
  destruct (prepare_pname _ _); [|done].
  change (readlines ?os cmdline_path) with (readlines (w_sys w) cmdline_path).
  destruct (readlines _ _ _ _ _ _ _) as [r args buf errno|]; [|done].
  destruct (r =? -1); [done|].
  change (load_environment ?os environ_path)
    with (load_environment (w_sys w) environ_path).
  destruct (load_environment _ _ _ _ _ _ _) as [[r' s]|]; [|done].
  destruct (r' =? -1); [done|].
  unfold notify_and_exec.
  change (writefifo ?os syncfifo) with (writefifo (w_sys w) syncfifo).
  cbn [sys_execvp sys_prctl_set_name].
  destruct (writefifo _ _ _) as [r'' sent].
  destruct (r'' =? -1); [done|].
  destruct args as [|[file|] args]; [done| |done].
  by destruct (sys_execvp _ _ _ _).
Qed.

(** X18.  A staged file that cannot be opened ends the run before the
    rendezvous: whichever of [cmdline.txt] and [environ] is missing, the
    events are diagnostics only (no process name set, nothing written into
    the pipe) and the process is not replaced: it exits with status 1, or
    has stored outside [pname] or [args] before. *)
Theorem missing_file_stops_before_rendezvous w :
  fopen (w_sys w) cmdline_path = None
  ∨ fopen (w_sys w) environ_path = None →
  Forall is_diagnostic (main w).1
  ∧ ((main w).2 = Exited 1
     ∨ (main w).2 = Undefined PnameOverrun
     ∨ (main w).2 = Undefined ArgsOverrun).
Proof.
  intros Hmissing.
  destruct (main w) as [tr e] eqn:Hmain. simpl. revert Hmain.
  assert (∀ msg st, ([Perror msg], Exited st) = (tr, e) → st = 1 →
            Forall is_diagnostic tr
            ∧ (e = Exited 1 ∨ e = Undefined PnameOverrun
               ∨ e = Undefined ArgsOverrun)) as Hperror.
  { intros msg st [= <- <-] ->. split; [by repeat constructor|auto]. }
  unfold main.
  destruct (negb _).
  { intros [= <- <-]. split; [by repeat constructor|auto]. }
  destruct (prepare_pname _ _);
    [|intros [= <- <-]; split; [constructor|auto]].
  unfold readlines.
  destruct (fopen (w_sys w) cmdline_path) as [f|] eqn:Hcmd; cycle 1.
  { simpl. intros H. by eapply Hperror. }
  destruct Hmissing as [?|Henv]; [done|].
  destruct (readlines_loop _ _ _ _ _ _) as [[[[n f'] buf'] lines']|];
    [|intros [= <- <-]; split; [constructor|auto]].
  simpl negb. cbv iota.
  destruct (negb (sys_fclose (w_sys w) =? 0)).
  { simpl. intros H. by eapply Hperror. }
  destruct (store lines' n None);
    [|intros [= <- <-]; split; [constructor|auto]].
  destruct (n =? -1); [intros H; by eapply Hperror|].
  unfold load_environment. rewrite Henv. simpl.
  intros H. by eapply Hperror.
Qed.

Lemma missing_file_stops_before_rendezvous_witness :
  Forall is_diagnostic
    (main (bare_world ∅ [bytes_of "crio-lxc-init"; bytes_of "c1"])).1
  ∧ ((main (bare_world ∅ [bytes_of "crio-lxc-init"; bytes_of "c1"])).2
     = Exited 1
     ∨ (main (bare_world ∅ [bytes_of "crio-lxc-init"; bytes_of "c1"])).2
       = Undefined PnameOverrun
     ∨ (main (bare_world ∅ [bytes_of "crio-lxc-init"; bytes_of "c1"])).2
       = Undefined ArgsOverrun).
Proof.
  apply missing_file_stops_before_rendezvous. left. reflexivity.
Defined.

(** X19.  The exit statuses of [main] are 0 and 1, and status 1 never comes
    without a line on the error stream as the last event of the run. *)
Theorem exit_one_has_diagnostic w tr status :
  main w = (tr, Exited status) →
  (status = 0 ∨ status = 1)
  ∧ (status = 1 → ∃ d, last tr = Some d ∧ is_diagnostic d).
Proof.
  unfold main.
  destruct (negb _); [intros [= <- <-]; split; [auto|by eexists]|].
  destruct (prepare_pname _ _); [|done].
  destruct (readlines _ _ _ _ _ _ _) as [r args buf errno|]; [|done].
  destruct (r =? -1); [intros [= <- <-]; split; [auto|by eexists]|].
  destruct (load_environment _ _ _ _ _ _ _) as [[r' s]|]; [|done].
  destruct (r' =? -1); [intros [= <- <-]; split; [auto|by eexists]|].
  unfold notify_and_exec.
  destruct (writefifo _ _ _) as [r'' sent].
  destruct (r'' =? -1).
  { intros [= <- <-]. split; [auto|]. intros _. eexists.
    by rewrite app_assoc, last_snoc. }
  destruct args as [|[file|] args]; [done| |done].
  destruct (sys_execvp _ _ _ _) as [e|]; [|done].
  intros [= <- <-]. split; [auto|done].
Qed.

Lemma exit_one_has_diagnostic_witness :
  (1 = 0 ∨ 1 = 1)
  ∧ (1 = 1 → ∃ d, last [Usage 1] = Some d ∧ is_diagnostic d).
Proof.
  apply (exit_one_has_diagnostic (bare_world ∅ [bytes_of "crio-lxc-init"])).
  reflexivity.
Defined.

(** ** The uninitialised arrays of [main] *)

Lemma padded_seq src i n :
  padded src <$> seq i n
  = take n (drop i src)
    ++ replicate (n - length (take n (drop i src))) NUL.
Proof.
  revert i. induction n as [|n IH]; intros i; [done|].
  cbn [seq fmap list_fmap]. rewrite IH.
  destruct (src !! i) as [b|] eqn:E.
  - replace (padded src i) with b by (unfold padded; by rewrite E).
    by rewrite (drop_S _ _ _ E).
  - replace (padded src i) with NUL by (unfold padded; by rewrite E).
    apply lookup_ge_None in E.
    rewrite !drop_ge by lia. rewrite !take_nil. simpl.
    by rewrite Nat.sub_0_r.
Qed.

(** X20.  The copy of the identifier fills all 16 bytes of [pname]: its
    first 15 bytes, or all of it when shorter, and NULs up to the end.
    Nothing of what the array held before is left. *)
Theorem pname_is_filled pname cid :
  Z.of_nat (length pname) = PNAME_SIZE →
  prepare_pname pname cid
  = Some (take 15 cid ++ replicate (16 - length (take 15 cid)) NUL).
Proof.
  intros Hlen. unfold PNAME_SIZE in *.
  rewrite prepare_pname_spec by lia. f_equal.
  rewrite padded_seq, drop_0, <-app_assoc. f_equal.
  assert (length (take 15 cid) ≤ 15)%nat by (rewrite length_take; lia).
  replace (16 - length (take 15 cid))%nat
    with (S (15 - length (take 15 cid))) by lia.
  by rewrite replicate_S_end.
Qed.

Lemma pname_is_filled_witness :
  prepare_pname (replicate 16 xff) (bytes_of "c1")
  = Some (take 15 (bytes_of "c1")
            ++ replicate (16 - length (take 15 (bytes_of "c1"))) NUL).
Proof. apply pname_is_filled. reflexivity. Defined.

(** X21.  What the uninitialised [buf] of [main] holds has no effect on the
    run: [readlines] and [load_environment] read only what they have written
    into it. *)
Theorem main_ignores_stack_buf buf w :
  stack_ok w → Z.of_nat (length buf) = BUF_SIZE →
  main (set_stack_buf buf w) = main w.
Proof.
  intros (Hbuf & _ & _) Hlen. unfold main, set_stack_buf.
  cbn [w_argv w_env w_errno w_sys stack_buf stack_args stack_pname stack_c].
  destruct (negb _); [done|].
  destruct (prepare_pname _ _); [|done].
  pose proof (readlines_two_buffers (w_sys w) cmdline_path buf (stack_buf w)
                BUF_SIZE (stack_args w) sizeof_args (w_errno w)
                ltac:(lia) ltac:(lia)) as Hlines.
  destruct (readlines _ _ buf _ _ _ _) as [r1 args1 b1 e1|],
           (readlines _ _ (stack_buf w) _ _ _ _) as [r2 args2 b2 e2|];
    try done.
  destruct Hlines as (<- & <- & <- & Hb & Hb1).
  destruct (r1 =? -1); [done|].
  unfold load_environment.
  destruct (fopen (w_sys w) environ_path) as [f|]; [|done].
  destruct (load_environment_on_total (sys_fclose (w_sys w)) f (stack_c w)
              b1 BUF_SIZE (w_env w) e1) as [[r s1] H1].
  destruct (env_loop_ignores_buffer _ _ BUF_SIZE
              (EnvState f (stack_c w) b1 (w_env w) e1)
              (EnvState f (stack_c w) b2 (w_env w) e1) _ _
              ltac:(by repeat split) ltac:(cbn [es_buf]; lia) H1)
    as (s2 & H2 & (_ & _ & Henv & _)).
  unfold load_environment_on in *. rewrite H1, H2.
  by rewrite Henv.
Qed.

Lemma main_ignores_stack_buf_witness :
  main (set_stack_buf (replicate (Z.to_nat BUF_SIZE) x41)
          (staged_world (lines_bytes echo_hello) (environ_bytes foo_bar)
             None))
  = main (staged_world (lines_bytes echo_hello) (environ_bytes foo_bar)
            None).
Proof.
  apply main_ignores_stack_buf.
  - apply staged_world_ok.
  - rewrite length_replicate. apply Z2Nat.id. by vm_compute.
Defined.

(** ** A line longer than the buffer, and a name that is empty *)

Lemma take_line_full room chunk f :
  newline ∉ chunk → Z.of_nat (length chunk) = room →
  take_line room (chunk ++ f) = (chunk, f).
Proof.
  revert room. induction chunk as [|b l IH]; intros room Hl Hroom.
  - simpl in *. destruct f; [done|]. simpl.
    by rewrite (proj2 (Z.leb_le room 0)) by lia.
  - apply not_elem_of_cons in Hl as [Hb Hl]. simpl in *.
    rewrite (proj2 (Z.leb_gt room 0)) by lia.
    rewrite decide_False by done.
    by rewrite IH by (done || lia).
Qed.

(** X22.  A line longer than the buffer is not cut off but split, and each
    split costs a byte: when the file starts with [buflen - 1] bytes without
    a newline, the first token is the first [buflen - 2] of them, the byte
    after those is lost, and the rest of the line is the next token. *)
Theorem long_line_is_split
    os path buf buflen lines maxlines errno chunk l :
  fopen os path = Some (chunk ++ l ++ [newline]) → sys_fclose os = 0 →
  (newline ∉ chunk) → (NUL ∉ chunk) →
  Z.of_nat (length chunk) = buflen - 1 →
  well_formed_line buflen l →
  buflen ≤ INT_MAX → buflen ≤ Z.of_nat (length buf) →
  2 < maxlines → (2 < length lines)%nat →
  ∃ lines' buf',
    readlines os path buf buflen lines maxlines errno
    = RlReturn 2 lines' buf' 0
    ∧ argv_list lines' = [take (length chunk - 1) chunk; l].
Proof.
  intros Hopen Hclose Hnl Hnul Hchunk Hl Hmax Hbuf Hn Hroom.
  pose proof Hl as (_ & _ & Hfit).
  unfold readlines. rewrite Hopen, Hclose.
  destruct (Z.to_nat (maxlines - 1)) as [|k] eqn:Hk; [lia|].
  cbn [readlines_loop].
  assert (fgets buf buflen (chunk ++ l ++ [newline])
          = (Some (list_inserts 0 (chunk ++ [NUL]) buf), l ++ [newline]))
    as ->.
  { unfold fgets.
    rewrite (proj2 (Z.leb_gt buflen 0)) by lia.
    rewrite (proj2 (Z.eqb_neq buflen 1)) by lia.
    rewrite take_line_full by (done || lia).
    destruct chunk; [simpl in *; lia|done]. }
  set (buf1 := list_inserts 0 (chunk ++ [NUL]) buf).
  assert (cstring buf1 = chunk) as ->.
  { unfold buf1. rewrite list_inserts_0_app
      by (rewrite length_app; simpl; lia).
    rewrite <-app_assoc. by apply cstring_app_NUL. }
  assert (strndup chunk ((strlen chunk - 1) mod SIZE_MOD)
          = take (length chunk - 1) chunk) as ->.
  { unfold strndup, strlen.
    rewrite Z.mod_small by (unfold INT_MAX, SIZE_MOD in *; lia).
    rewrite Z.min_l by lia. f_equal. lia. }
  set (tok := take (length chunk - 1) chunk).
  rewrite store_in by lia.
  destruct (readlines_loop_lines buflen [l] (k - 1) (0 + 1) []
              buf1 (<[Z.to_nat 0 := Some tok]> lines))
    as (buf' & Hlen & Hloop);
    [by apply Forall_singleton|done|
     unfold buf1; rewrite length_inserts; lia|lia|
     rewrite length_insert; simpl; lia|].
  replace (length [l] + (k - 1))%nat with k in Hloop by (simpl; lia).
  rewrite app_nil_r in Hloop.
  change (lines_bytes [l]) with ((l ++ [newline]) ++ []) in Hloop.
  rewrite app_nil_r in Hloop. rewrite Hloop.
  rewrite readlines_loop_eof by lia. simpl negb. cbv iota.
  assert (list_inserts (Z.to_nat (0 + 1)) (Some <$> [l])
            (<[Z.to_nat 0 := Some tok]> lines)
          = list_inserts 0 (Some <$> [tok; l]) lines) as ->.
  { simpl. apply list_insert_insert_ne. lia. }
  change (0 + 1 + Z.of_nat (length [l])) with (Z.of_nat (length [tok; l])).
  rewrite store_sentinel by (simpl; lia).
  eexists _, _. split; [reflexivity|]. apply argv_list_tokens.
Qed.

Lemma long_line_is_split_witness :
  ∃ lines' buf',
    readlines (quiet_sys (bytes_of "0123456" ++ bytes_of "89" ++ [newline])
                 [] None)
      cmdline_path (replicate 8 NUL) 8 (replicate 4 None) 4 0
    = RlReturn 2 lines' buf' 0
    ∧ argv_list lines'
      = [take (length (bytes_of "0123456") - 1) (bytes_of "0123456");
         bytes_of "89"].
Proof.
  apply long_line_is_split.
  - apply fopen_cmdline.
  - reflexivity.
  - decide_closed.
  - decide_closed.
  - reflexivity.
  - decide_closed.
  - by vm_compute.
  - by vm_compute.
  - reflexivity.
  - vm_compute. lia.
Defined.

(** X23.  The one bad record that stops the process: with a [cmdline.txt]
    of fewer than 256 well-formed lines and an [environ] where a record
    starts with '=' behind well-formed records, [load_environment] returns
    -1 and [main] prints its diagnostic and exits with status 1 before the
    rendezvous. *)
Theorem empty_key_is_fatal w prog cid ls recs v f :
  stack_ok w → w_argv w = [prog; cid] → stack_c w ≠ xff →
  fopen (w_sys w) cmdline_path = Some (lines_bytes ls) →
  fopen (w_sys w) environ_path
  = Some (environ_bytes recs ++ equals_sign :: v ++ NUL :: f) →
  sys_fclose (w_sys w) = 0 →
  Forall (well_formed_line BUF_SIZE) ls →
  Z.of_nat (length ls) < ARGS_LEN →
  Forall (well_formed_record BUF_SIZE) recs →
  Forall value_byte v → Z.of_nat (length v) + 2 ≤ BUF_SIZE →
  main w = ([Perror "failed to read environment file"], Exited 1).
Proof.
  intros (Hbuf & Hargs & Hpname) Hargv Hc Hcmd Henv Hclose Hls Hn Hrecs Hv
    Hfit.
  rewrite (main_with_identifier w prog cid) by done.
  destruct (readlines_lines (w_sys w) cmdline_path (stack_buf w) BUF_SIZE
              (stack_args w) sizeof_args (w_errno w) ls)
    as (buf' & Hlen & ->); try done.
  { lia. }
  { unfold sizeof_args, ARGS_LEN, sizeof_pointer in *. lia. }
  { unfold ARGS_LEN in *. lia. }
  rewrite (proj2 (Z.eqb_neq (Z.of_nat (length ls)) (-1))) by lia.
  unfold load_environment. rewrite Henv.
  destruct (load_environment_on_empty_key (sys_fclose (w_sys w)) recs v f
              (stack_c w) buf' BUF_SIZE (w_env w))
    as (s & -> & _); [done..|lia|].
  reflexivity.
Qed.

Lemma empty_key_is_fatal_witness :
  main (staged_world (lines_bytes echo_hello)
          (environ_bytes foo_bar ++ equals_sign :: bytes_of "y" ++ NUL
             :: bytes_of "Z=1") None)
  = ([Perror "failed to read environment file"], Exited 1).
Proof.
  apply (empty_key_is_fatal _ (bytes_of "crio-lxc-init") (bytes_of "c1")
           echo_hello foo_bar (bytes_of "y") (bytes_of "Z=1")).
  - apply staged_world_ok.
  - reflexivity.
  - discriminate.
  - apply fopen_cmdline.
  - apply fopen_environ.
  - reflexivity.
  - apply echo_hello_well_formed.
  - by vm_compute.
  - apply foo_bar_well_formed.
  - decide_closed.
  - by vm_compute.
Defined.

(** * The byte 0xFF as the end of the file *)

(** A pair that a byte 0xFF cuts off before its NUL. *)
Lemma read_record_pair_xff buflen k v post c buf :
  Forall key_byte k → Forall value_byte v →
  Z.of_nat (length k) + Z.of_nat (length v) + 2 ≤ buflen →
  buflen ≤ Z.of_nat (length buf) →
  read_record buflen (k ++ equals_sign :: v ++ xff :: post) 0 c buf None
  = ForDone post xff
      (k ++ NUL :: v ++ NUL :: drop (length k + length v + 2) buf)
      (Some (Z.of_nat (length k) + 1)).
Proof.
  intros Hk Hv Hfit Hbuf.
  rewrite read_record_prefix by (done || lia).
  rewrite read_record_equals by lia.
  rewrite read_record_prefix by (done || lia).
  rewrite read_record_xff by lia.
  by rewrite pair_in_buffer by lia.
Qed.

Lemma load_record_pair_xff buflen k v post c buf env :
  k ≠ [] → Forall key_byte k → Forall value_byte v →
  Z.of_nat (length k) + Z.of_nat (length v) + 2 ≤ buflen →
  buflen ≤ Z.of_nat (length buf) →
  load_record buflen
    (EnvState (k ++ equals_sign :: v ++ xff :: post) c buf env 0)
  = Again (EnvState post xff
             (k ++ NUL :: v ++ NUL :: drop (length k + length v + 2) buf)
             (<[k := v]> env) 0).
Proof.
  intros Hne Hk Hv Hfit Hbuf. unfold load_record. simpl.
  rewrite read_record_pair_xff by done. simpl.
  rewrite cstring_at_0, cstring_app_NUL by by apply key_bytes_no_NUL.
  rewrite (cons_middle NUL k), app_assoc.
  rewrite cstring_at_app by (rewrite length_app; simpl; lia).
  rewrite cstring_app_NUL by by apply value_bytes_no_NUL.
  rewrite setenv_ok by (done || by apply key_bytes_no_equals).
  simpl. by rewrite <-app_assoc.
Qed.

(** A byte 0xFF before any '=' of its record. *)
Lemma load_record_key_xff buflen k post c buf env :
  Forall key_byte k → Z.of_nat (length k) < buflen →
  load_record buflen (EnvState (k ++ xff :: post) c buf env 0)
  = Return EINVAL
      (EnvState post xff (<[length k := NUL]> (list_inserts 0 k buf)) env 0).
Proof.
  intros Hk Hfit. unfold load_record. simpl.
  rewrite read_record_prefix by (done || lia).
  rewrite read_record_xff by lia. simpl.
  do 3 f_equal. lia.
Qed.

(** C9.  A byte 0xFF of the environment file is taken for the end of the
    file, since it is stored in the [char c] that is compared with [EOF].
    Behind any number of well-formed records:
    - when the byte comes in the value of a record [k=v...], the record is
      closed there: [k] is set to [v], the bytes of the value before the
      byte, and [load_environment] leaves the loop with [c] at 0xFF and
      returns the status of [fclose];
    - when the byte comes before any '=' of its record, at its start or in
      the key [k'], the record is closed there as one with no '=' and
      [load_environment] returns [EINVAL];
    - either way no byte behind the 0xFF is read, and the status, the
      environment and the buffer are those of the run on the file that ends
      where the byte is.
    And on any file at all, from any state, the run returns what it returns
    on the file cut before the byte, and the bytes behind it stay unread. *)
Theorem xff_byte_read_as_end_of_file fclose_res recs k v k' post c0 buf
    buflen env :
  Forall (well_formed_record buflen) recs →
  well_formed_record buflen (k, v) →
  Forall key_byte k' → Z.of_nat (length k') < buflen →
  c0 ≠ xff → buflen ≤ Z.of_nat (length buf) →
  (∃ s t,
     load_environment_on fclose_res
       (environ_bytes recs ++ k ++ equals_sign :: v ++ xff :: post)
       c0 buf buflen env 0 = Some (fclose_res, s)
     ∧ es_env s = install (recs ++ [(k, v)]) env
     ∧ es_c s = xff ∧ es_file s = post
     ∧ load_environment_on fclose_res
         (environ_bytes recs ++ k ++ equals_sign :: v)
         c0 buf buflen env 0 = Some (fclose_res, t)
     ∧ es_env t = es_env s ∧ es_buf t = es_buf s)
  ∧ (∃ s t,
       load_environment_on fclose_res
         (environ_bytes recs ++ k' ++ xff :: post)
         c0 buf buflen env 0 = Some (EINVAL, s)
       ∧ es_env s = install recs env
       ∧ es_c s = xff ∧ es_file s = post
       ∧ load_environment_on fclose_res (environ_bytes recs ++ k')
           c0 buf buflen env 0 = Some (EINVAL, t)
       ∧ es_env t = es_env s ∧ es_buf t = es_buf s)
  ∧ (∀ pre c errno,
       ∃ r s1 s2,
         load_environment_on fclose_res pre c buf buflen env errno
         = Some (r, s1)
         ∧ load_environment_on fclose_res (pre ++ xff :: post) c buf buflen
             env errno = Some (r, s2)
         ∧ es_env s2 = es_env s1 ∧ es_buf s2 = es_buf s1
         ∧ (es_file s2 = post ∨ es_file s2 = es_file s1 ++ xff :: post)).
Proof.
  intros Hrecs (Hne & Hk & Hv & Hfit) Hk' Hfit' Hc Hbuf.
  cbn [fst snd] in *.
  split_and!.
  - destruct (env_loop_after_records fclose_res buflen recs
                (k ++ equals_sign :: v ++ xff :: post) c0 buf env)
      as (c & buf' & Hc' & Hlen & Hrun); [done..|].
    pose (s := EnvState post xff
                 (k ++ NUL :: v ++ NUL
                    :: drop (length k + length v + 2) buf')
                 (<[k := v]> (install recs env)) 0).
    assert (load_environment_on fclose_res
              (environ_bytes recs ++ k ++ equals_sign :: v ++ xff :: post)
              c0 buf buflen env 0 = Some (fclose_res, s)) as Hs.
    { apply (Hrun _ _ 2%nat). rewrite env_loop_unfold. cbn [es_c].
      rewrite char_is_EOF, bool_decide_eq_false_2 by done. cbn [negb].
      rewrite load_record_pair_xff by (done || lia).
      reflexivity. }
    destruct (xff_byte_ends_parsing fclose_res
                (environ_bytes recs ++ k ++ equals_sign :: v) post c0 buf
                buflen env 0)
      as (r & t & s2 & Ht & H2 & Henv & Hbuf' & _).
    rewrite <-!app_assoc in H2. cbn [app] in H2.
    rewrite Hs in H2. injection H2 as <- <-.
    exists s, t. split_and!; [done| |done..].
    cbn [es_env s]. unfold install. by rewrite foldl_app.
  - destruct (env_loop_after_records fclose_res buflen recs
                (k' ++ xff :: post) c0 buf env)
      as (c & buf' & Hc' & Hlen & Hrun); [done..|].
    pose (s := EnvState post xff
                 (<[length k' := NUL]> (list_inserts 0 k' buf'))
                 (install recs env) 0).
    assert (load_environment_on fclose_res
              (environ_bytes recs ++ k' ++ xff :: post)
              c0 buf buflen env 0 = Some (EINVAL, s)) as Hs.
    { apply (Hrun _ _ 1%nat). rewrite env_loop_unfold. cbn [es_c].
      rewrite char_is_EOF, bool_decide_eq_false_2 by done. cbn [negb].
      by rewrite load_record_key_xff. }
    destruct (xff_byte_ends_parsing fclose_res (environ_bytes recs ++ k')
                post c0 buf buflen env 0)
      as (r & t & s2 & Ht & H2 & Henv & Hbuf' & _).
    rewrite <-!app_assoc in H2.
    rewrite Hs in H2. injection H2 as <- <-.
    by exists s, t.
  - intros pre c errno. apply xff_byte_ends_parsing.
Qed.

Lemma xff_byte_read_as_end_of_file_witness :
  (∃ s t,
     load_environment_on 0
       (environ_bytes foo_bar ++ bytes_of "A" ++ equals_sign :: bytes_of "b"
          ++ xff :: bytes_of "c" ++ NUL :: bytes_of "D=e" ++ [NUL])
       NUL (replicate 16 NUL) 16 ∅ 0 = Some (0, s)
     ∧ es_env s = install (foo_bar ++ [(bytes_of "A", bytes_of "b")]) ∅
     ∧ es_c s = xff
     ∧ es_file s = bytes_of "c" ++ NUL :: bytes_of "D=e" ++ [NUL]
     ∧ load_environment_on 0
         (environ_bytes foo_bar ++ bytes_of "A" ++ equals_sign
            :: bytes_of "b")
         NUL (replicate 16 NUL) 16 ∅ 0 = Some (0, t)
     ∧ es_env t = es_env s ∧ es_buf t = es_buf s)
  ∧ (∃ s t,
       load_environment_on 0
         (environ_bytes foo_bar ++ bytes_of "KEY" ++ xff :: bytes_of "c"
            ++ NUL :: bytes_of "D=e" ++ [NUL])
         NUL (replicate 16 NUL) 16 ∅ 0 = Some (EINVAL, s)
       ∧ es_env s = install foo_bar ∅
       ∧ es_c s = xff
       ∧ es_file s = bytes_of "c" ++ NUL :: bytes_of "D=e" ++ [NUL]
       ∧ load_environment_on 0 (environ_bytes foo_bar ++ bytes_of "KEY")
           NUL (replicate 16 NUL) 16 ∅ 0 = Some (EINVAL, t)
       ∧ es_env t = es_env s ∧ es_buf t = es_buf s)
  ∧ (∀ pre c errno,
       ∃ r s1 s2,
         load_environment_on 0 pre c (replicate 16 NUL) 16 ∅ errno
         = Some (r, s1)
         ∧ load_environment_on 0
             (pre ++ xff :: bytes_of "c" ++ NUL :: bytes_of "D=e" ++ [NUL])
             c (replicate 16 NUL) 16 ∅ errno = Some (r, s2)
         ∧ es_env s2 = es_env s1 ∧ es_buf s2 = es_buf s1
         ∧ (es_file s2 = bytes_of "c" ++ NUL :: bytes_of "D=e" ++ [NUL]
            ∨ es_file s2
              = es_file s1
                ++ xff :: bytes_of "c" ++ NUL :: bytes_of "D=e" ++ [NUL])).
Proof.
  apply (xff_byte_read_as_end_of_file 0 foo_bar (bytes_of "A") (bytes_of "b")
           (bytes_of "KEY")
           (bytes_of "c" ++ NUL :: bytes_of "D=e" ++ [NUL])).
  - decide_closed.
  - decide_closed.
  - decide_closed.
  - by vm_compute.
  - discriminate.
  - by vm_compute.
Defined.
